(** * Estimating pi by quantum phase estimation: the circuit builders and
      the estimation driver of [content/ch-demos/piday-code.ipynb]

    The notebook builds, for a qubit count [n], a circuit out of library
    gate calls, hands it to an execution backend, and turns the most
    frequent measurement outcome into an estimate of pi.

    Conventions of the embedding.
    - A circuit is the mutable object the notebook passes around: its
      two register sizes and the ordered list of instructions appended so
      far.  A gate call first checks its arguments the way the circuit
      library does (an index outside the circuit, a repeated qubit or an
      empty list of qubits raises [CircuitError] and appends nothing) and
      then appends.
    - Python code that mutates an object and may raise is a function
      [S -> S * result A]: the state survives an exception, as in Python.
    - Qubit counts and loop indices are [nat] (every subtraction the
      notebook performs on them stays non-negative inside its loop);
      integers that can grow large are [Z].
    - A Python float is a binary64 number: a rational that is a double,
      or an infinity.  Every float operation rounds the exact result to
      the nearest double, ties to even; the rounding is checked against
      the Standard Library's specification of binary64 on sample
      inputs.  The constant [np.pi] stays symbolic.
    - Running time and memory are not modelled: a loop of 2^n steps
      ends. *)

From Stdlib Require Import List ZArith QArith Qpower Qabs Qround Qreduction Qcanon.
From Stdlib Require Import Lia String Ascii Bool Arith.
From Stdlib Require Import Floats.SpecFloat.
From Stdlib Require DecimalString.
Import ListNotations.


Local Open Scope nat_scope.

(** ** Exceptions and the state-and-exception monad *)

Inductive exn : Type :=
| OverflowError
| ZeroDivisionError
| ValueError
| CircuitError    (* raised by the circuit library on bad arguments *)
| BackendError.   (* any fault of the execution backend *)

Inductive result (A : Type) : Type :=
| Ok (a : A)
| Raise (e : exn).

Arguments Ok {A} a.
Arguments Raise {A} e.

Definition prog (S A : Type) : Type := S -> S * result A.

Definition ret {S A} (a : A) : prog S A := fun s => (s, Ok a).

Definition bind {S A B} (p : prog S A) (k : A -> prog S B) : prog S B :=
  fun s =>
    match p s with
    | (s', Ok a) => k a s'
    | (s', Raise e) => (s', Raise e)
    end.

(** An expression that may raise but touches no state. *)
Definition lift {S A} (r : result A) : prog S A := fun s => (s, r).

Declare Scope prog_scope.
Delimit Scope prog_scope with prog.
Notation "x <- p ;; k" := (bind p (fun x => k))
  (at level 61, p at next level, right associativity) : prog_scope.
Notation "p ;; k" := (bind p (fun _ => k))
  (at level 61, right associativity) : prog_scope.
Local Open Scope prog_scope.

(** [for x in xs: body(x)] *)
Fixpoint for_each {S A} (xs : list A) (body : A -> prog S unit) : prog S unit :=
  match xs with
  | [] => ret tt
  | x :: xs' => body x ;; for_each xs' body
  end.

(** ** Binary64 rounding *)

Module Double.

(** 2^e for any integer e. *)
Definition pow2 (e : Z) : Q := Qpower 2 e.

(** The integer nearest to [x], ties to the even one. *)
Definition round_half_even (x : Q) : Z :=
  let f := Qfloor x in
  match Qcompare (x - inject_Z f) (1 # 2) with
  | Lt => f
  | Gt => (f + 1)%Z
  | Eq => if Z.even f then f else (f + 1)%Z
  end.

(** The binade of a positive [x]: the e with 2^e <= x < 2^(e+1). *)
Definition ilog2 (x : Q) : Z :=
  let e0 := (Z.log2 (Qnum x) - Z.log2 (Zpos (Qden x)))%Z in
  if Qle_bool (pow2 e0) x then e0 else (e0 - 1)%Z.

(** Rounding of a positive [x] to 53 significant bits, on the grid of
    the subnormals below 2^-1022; no bound on the exponent above. *)
Definition round_pos (x : Q) : Q :=
  let q := (Z.max (ilog2 x) (-1022) - 52)%Z in
  Qred (inject_Z (round_half_even (x / pow2 q)) * pow2 q).

Definition round (x : Q) : Q :=
  match Qcompare x 0 with
  | Eq => 0%Q
  | Gt => round_pos x
  | Lt => (- round_pos (- x))%Q
  end.

End Double.

(** A Python float that is not a NaN. *)
Inductive pyfloat : Type :=
| Finite (q : Q)
| Infinite (negative : bool).

(** ** The Python builtins the notebook uses *)

Module Py.

(** [range(n)] *)
Definition range (n : nat) : list nat := seq 0 n.

(** [range(a, b)] *)
Definition range2 (a b : nat) : list nat := seq a (b - a).

(** [reversed(xs)] *)
Definition reversed {A} (xs : list A) : list A := rev xs.

(** [int(x)] on a float: truncation toward zero. *)
Definition int (x : Q) : Z := Z.quot (Qnum x) (Zpos (Qden x)).

(** The largest magnitude [float(z)] accepts: from 2^1024 - 2^970 on,
    the integer rounds to 2^1024, which is no double. *)
Definition float_limit : Z := (2 ^ 1024 - 2 ^ 970)%Z.

(** [a / b] on ints, true division: the exact quotient rounded once;
    [ZeroDivisionError] on a zero divisor, [OverflowError] when the
    quotient is out of double range. *)
Definition truediv (a b : Z) : result Q :=
  if (b =? 0)%Z then Raise ZeroDivisionError
  else if (float_limit * Z.abs b <=? Z.abs a)%Z then Raise OverflowError
  else Ok (Double.round (inject_Z a / inject_Z b)).

(** [float(z)] on an int: [OverflowError] when [z] is too large. *)
Definition float (z : Z) : result Q :=
  if (Z.abs z <? float_limit)%Z then Ok (Double.round (inject_Z z))
  else Raise OverflowError.

(** A rounded result as a float: an infinity from 2^1024 on. *)
Definition overflow (p : Q) : pyfloat :=
  if Qle_bool (inject_Z (2 ^ 1024)) (Qabs p)
  then Infinite (negb (Qle_bool 0 p))
  else Finite p.

(** [x * y] on finite floats: no exception, an infinity on overflow. *)
Definition fmul (x y : Q) : pyfloat := overflow (Double.round (x * y)).

(** [x / y] with a finite [x]: [ZeroDivisionError] when [y] is zero,
    zero when [y] is an infinity, an infinity on overflow. *)
Definition fdiv (x : Q) (y : pyfloat) : result pyfloat :=
  match y with
  | Infinite _ => Ok (Finite 0)
  | Finite d =>
      if Qeq_bool d 0 then Raise ZeroDivisionError
      else Ok (overflow (Double.round (x / d)))
  end.

(** [str(n)] on a non-negative int. *)
Definition str (n : nat) : string :=
  DecimalString.NilZero.string_of_uint (Nat.to_uint n).

End Py.

(** ** Circuits *)

(** The rotation angle handed to [cu1]. *)
Inductive angle : Type :=
| NegPiOver (d : Q)   (* the float [-np.pi / d] *)
| IntAngle (z : Z).   (* an int literal *)

Inductive instr : Type :=
| Swap (a b : nat)
| Cu1 (theta : angle) (control target : nat)
| H (q : nat)
| X (q : nat)
| Barrier (qs : list nat)
| Measure (q c : nat).

Record circuit : Type := mkCircuit {
  num_qubits : nat;
  num_clbits : nat;
  data : list instr
}.

(** [QuantumCircuit(q, c)] *)
Definition QuantumCircuit (q c : nat) : circuit := mkCircuit q c [].

Definition add_ops (c : circuit) (ops : list instr) : circuit :=
  mkCircuit (num_qubits c) (num_clbits c) (data c ++ ops).

(** A call on arguments the library has accepted appends its
    instructions; a call it refuses raises and appends nothing. *)
Definition append_if (accepted : circuit -> bool) (ops : list instr) : prog circuit unit :=
  fun c => if accepted c then (add_ops c ops, Ok tt) else (c, Raise CircuitError).

(** Every index names a qubit of the circuit. *)
Definition qubits_ok (qs : list nat) (c : circuit) : bool :=
  forallb (fun q => q <? num_qubits c) qs.

Definition clbits_ok (cs : list nat) (c : circuit) : bool :=
  forallb (fun b => b <? num_clbits c) cs.

(** The gate methods called by the notebook: a two-qubit gate also
    refuses the same qubit twice. *)
Definition swap (a b : nat) : prog circuit unit :=
  append_if (fun c => qubits_ok [a; b] c && negb (a =? b)) [Swap a b].

Definition cu1 (theta : angle) (control target : nat) : prog circuit unit :=
  append_if (fun c => qubits_ok [control; target] c && negb (control =? target))
            [Cu1 theta control target].

Definition h (q : nat) : prog circuit unit := append_if (qubits_ok [q]) [H q].

Definition x (q : nat) : prog circuit unit := append_if (qubits_ok [q]) [X q].

(** [circ.h(range(..))]: one gate per listed qubit, in order; an empty
    list of qubits is refused. *)
Definition h_each (qs : list nat) : prog circuit unit :=
  append_if (fun c => negb (Nat.eqb (List.length qs) 0) && qubits_ok qs c) (map H qs).

(** [circ.barrier()]: one barrier across all qubits of the circuit. *)
Definition barrier : prog circuit unit :=
  fun c => (add_ops c [Barrier (Py.range (num_qubits c))], Ok tt).

(** [circ.measure(qs, cs)]: qubit i of [qs] into bit i of [cs] when
    the two lists have the same length, a single qubit into each bit
    of a non-empty [cs]; lists of other lengths are refused. *)
Definition measure (qs cs : list nat) : prog circuit unit :=
  fun c =>
    if qubits_ok qs c && clbits_ok cs c then
      if Nat.eqb (List.length qs) (List.length cs)
      then (add_ops c (map (fun qc => Measure (fst qc) (snd qc)) (combine qs cs)), Ok tt)
      else match qs, cs with
           | [q], _ :: _ => (add_ops c (map (Measure q) cs), Ok tt)
           | _, _ => (c, Raise CircuitError)
           end
    else (c, Raise CircuitError).

(** [-np.pi / d] *)
Definition neg_pi_div (d : Q) : result angle :=
  if Qeq_bool d 0%Q then Raise ZeroDivisionError else Ok (NegPiOver d).

(** ** The two circuit builders *)

(** [[
def qft_dagger(circ_, n_qubits):
    for qubit in range(int(n_qubits/2)):
        circ_.swap(qubit, n_qubits-qubit-1)
    for j in range(0,n_qubits):
        for m in range(j):
            circ_.cu1(-np.pi/float(2**(j-m)), m, j)
        circ_.h(j)
]] *)
Definition qft_dagger (n_qubits : nat) : prog circuit unit :=
  half <- lift (Py.truediv (Z.of_nat n_qubits) 2%Z) ;;
  for_each (Py.range (Z.to_nat (Py.int half)))
    (fun qubit => swap qubit (n_qubits - qubit - 1)) ;;
  for_each (Py.range2 0 n_qubits) (fun j =>
    for_each (Py.range j) (fun m =>
      d <- lift (Py.float (2 ^ Z.of_nat (j - m))%Z) ;;
      theta <- lift (neg_pi_div d) ;;
      cu1 theta m j) ;;
    h j).

(** [[
def qpe_pre(circ_, n_qubits):
    circ_.h(range(n_qubits))
    circ_.x(n_qubits)
    for x in reversed(range(n_qubits)):
        for _ in range(2**(n_qubits-1-x)):
            circ_.cu1(1, n_qubits-1-x, n_qubits)
]] *)
Definition qpe_pre (n_qubits : nat) : prog circuit unit :=
  h_each (Py.range n_qubits) ;;
  x n_qubits ;;
  for_each (Py.reversed (Py.range n_qubits)) (fun x_ =>
    for_each (Py.range (2 ^ (n_qubits - 1 - x_))) (fun _ =>
      cu1 (IntAngle 1%Z) (n_qubits - 1 - x_) n_qubits)).

(** ** Measurement outcomes *)

(** The counts table returned by the backend: a dict from bitstring to
    number of occurrences, in the dict's iteration order. *)
Definition counts : Type := list (string * Z).

Definition keys (d : counts) : list string := map fst d.

(** [d.get(k)] for a key of the dict (the notebook only asks for keys
    it has just read from the same dict). *)
Fixpoint counts_get (d : counts) (k : string) : Z :=
  match d with
  | [] => 0%Z
  | (k', v) :: d' => if String.eqb k k' then v else counts_get d' k
  end.

Module PyMax.

(** The scan of [max]: a later item replaces the best one only when
    its key value is strictly larger. *)
Fixpoint scan {A} (key : A -> Z) (best : A) (xs : list A) : A :=
  match xs with
  | [] => best
  | a :: xs' => scan key (if (key best <? key a)%Z then a else best) xs'
  end.

(** [max(xs, key=key)]: [ValueError] on an empty sequence. *)
Definition max {A} (xs : list A) (key : A -> Z) : result A :=
  match xs with
  | [] => Raise ValueError
  | a :: xs' => Ok (scan key a xs')
  end.

End PyMax.

Module PyInt.

Fixpoint digits (s : string) (acc : Z) : result Z :=
  match s with
  | EmptyString => Ok acc
  | String ch s' =>
      if Ascii.eqb ch "0" then digits s' (2 * acc)%Z
      else if Ascii.eqb ch "1" then digits s' (2 * acc + 1)%Z
      else Raise ValueError
  end.

(** [int(s, 2)] on a string of binary digits, the form in which the
    backend reports outcomes: [ValueError] on the empty string.  The
    other spellings Python reads as a number (a sign, a 0b prefix,
    underscores, blanks around) do not occur in a counts table and are
    rejected here. *)
Definition parse2 (s : string) : result Z :=
  match s with
  | EmptyString => Raise ValueError
  | _ => digits s 0%Z
  end.

End PyInt.

(** ** The notebook session: what a run leaves behind *)

Inductive backend : Type := Backend (name : string).

(** [simulator = Aer.get_backend('qasm_simulator')] *)
Definition simulator : backend := Backend "qasm_simulator".

Record job : Type := mkJob {
  job_circ : circuit;
  job_backend : backend;
  job_shots : Z;
  job_optimization_level : Z
}.

Inductive out_line : Type :=
| JobStatus (j : job)                            (* what [job_monitor] reports *)
| EstimateLine (nq : nat) (estimate : pyfloat).  (* "{nq} qubits, pi = {estimate}" *)

Record session : Type := mkSession {
  files : list string;        (* image files saved *)
  stdout : list out_line;     (* lines printed *)
  jobs : list job;            (* jobs submitted to a backend *)
  pi_estimates : list pyfloat (* the notebook's global list *)
}.

Definition save_file (name : string) : prog session unit :=
  fun s => (mkSession (files s ++ [name]) (stdout s) (jobs s) (pi_estimates s), Ok tt).

Definition print (l : out_line) : prog session unit :=
  fun s => (mkSession (files s) (stdout s ++ [l]) (jobs s) (pi_estimates s), Ok tt).

(** [execute(circ, backend=.., shots=.., optimization_level=..)] *)
Definition execute (circ_ : circuit) (backend_ : backend)
    (shots optimization_level : Z) : prog session job :=
  fun s =>
    let j := mkJob circ_ backend_ shots optimization_level in
    (mkSession (files s) (stdout s) (jobs s ++ [j]) (pi_estimates s), Ok j).

(** [job_monitor(job)] *)
Definition job_monitor (j : job) : prog session unit := print (JobStatus j).

(** [pi_estimates = []] and [pi_estimates.append(e)] *)
Definition pi_estimates_reset : prog session unit :=
  fun s => (mkSession (files s) (stdout s) (jobs s) [], Ok tt).

Definition pi_estimates_append (e : pyfloat) : prog session unit :=
  fun s => (mkSession (files s) (stdout s) (jobs s) (pi_estimates s ++ [e]), Ok tt).

(** [circ.draw(output='mpl').savefig(name)] *)
Definition draw_savefig (circ : circuit) (name : string) : prog session unit :=
  save_file name.

(** A keyword argument with a default: [None] when the caller omits it. *)
Definition kwarg {A} (given : option A) (default : A) : A :=
  match given with
  | Some a => a
  | None => default
  end.

(** Run a builder on a circuit local to the caller. *)
Definition on_circuit {S} (c : circuit) (p : prog circuit unit) : prog S circuit :=
  fun s =>
    match p c with
    | (c', Ok _) => (s, Ok c')
    | (_, Raise e) => (s, Raise e)
    end.

(** The construction steps of [get_pi_estimate], applied to its fresh
    circuit before anything is run. [[
    qpe_pre(circ, n_qubits)
    circ.barrier()
    qft_dagger(circ, n_qubits)
    circ.barrier()
    circ.measure(range(n_qubits), range(n_qubits))
]] *)
Definition estimation_circuit (n_qubits : nat) : prog circuit unit :=
  qpe_pre n_qubits ;;
  barrier ;;
  qft_dagger n_qubits ;;
  barrier ;;
  measure (Py.range n_qubits) (Py.range n_qubits).

(** The phase [get_pi_estimate] reads off the counts table. [[
    max_counts_result = max(counts, key=counts.get)
    max_counts_result = int(max_counts_result, 2)
    theta = max_counts_result/2**n_qubits
]] *)
Definition theta_of_counts (n_qubits : nat) (cnts : counts) : result Q :=
  match PyMax.max (keys cnts) (counts_get cnts) with
  | Raise e => Raise e
  | Ok max_counts_result =>
      match PyInt.parse2 max_counts_result with
      | Raise e => Raise e
      | Ok max_counts_result =>
          Py.truediv max_counts_result (2 ^ Z.of_nat n_qubits)%Z
      end
  end.

Section Driver.

(** [job.result().get_counts(circ)]: the answer of the backend to a
    job, or the fault it raises.  Each job of a sweep carries a
    different circuit, so a function of the job covers every run. *)
Variable get_counts : job -> result counts.

(** [[
def run_job(circ_, backend_, shots_=1000, optimization_level_=0):
    job = execute(circ_, backend=backend_, shots=shots_, optimization_level=optimization_level_)
    job_monitor(job)
    return job.result().get_counts(circ_)
]] *)
Definition run_job (circ_ : circuit) (backend_ : backend)
    (shots_ optimization_level_ : option Z) : prog session counts :=
  job <- execute circ_ backend_ (kwarg shots_ 1000%Z) (kwarg optimization_level_ 0%Z) ;;
  job_monitor job ;;
  lift (get_counts job).

(** [[
def get_pi_estimate(n_qubits):
    circ = QuantumCircuit(n_qubits + 1, n_qubits)
    qpe_pre(circ, n_qubits)
    circ.barrier()
    qft_dagger(circ, n_qubits)
    circ.barrier()
    circ.measure(range(n_qubits), range(n_qubits))
    if n_qubits < 10:
        circ.draw(output='mpl').savefig(str(n_qubits)+'_qubit_circuit.png')
    counts = run_job(circ, backend_=simulator, shots_=10000, optimization_level_=0)
    max_counts_result = max(counts, key=counts.get)
    max_counts_result = int(max_counts_result, 2)
    theta = max_counts_result/2**n_qubits
    return (1./(2*theta))
]] *)
Definition get_pi_estimate (n_qubits : nat) : prog session pyfloat :=
  circ <- on_circuit (QuantumCircuit (n_qubits + 1) n_qubits)
            (estimation_circuit n_qubits) ;;
  (if n_qubits <? 10
   then draw_savefig circ (Py.str n_qubits ++ "_qubit_circuit.png")
   else ret tt) ;;
  cnts <- run_job circ simulator (Some 10000%Z) (Some 0%Z) ;;
  theta <- lift (theta_of_counts n_qubits cnts) ;;
  lift (Py.fdiv 1 (Py.fmul 2 theta)).

(** [nqs = list(range(2,12+1))] *)
Definition nqs : list nat := Py.range2 2 (12 + 1).

(** [[
pi_estimates = []
for nq in nqs:
    thisnq_pi_estimate = get_pi_estimate(nq)
    pi_estimates.append(thisnq_pi_estimate)
    print(f"{nq} qubits, pi = {thisnq_pi_estimate}")
]]
    The body of the loop first, then the cell. *)
Definition sweep_body (nq : nat) : prog session unit :=
  thisnq_pi_estimate <- get_pi_estimate nq ;;
  pi_estimates_append thisnq_pi_estimate ;;
  print (EstimateLine nq thisnq_pi_estimate).

Definition sweep : prog session unit :=
  pi_estimates_reset ;;
  for_each nqs sweep_body.

(** The counts table a call of [get_pi_estimate] obtains: the answer
    of the backend to the job for the circuit it has built. *)
Definition counts_of_run (n_qubits : nat) : result counts :=
  match estimation_circuit n_qubits (QuantumCircuit (n_qubits + 1) n_qubits) with
  | (circ, Ok _) => get_counts (mkJob circ simulator 10000%Z 0%Z)
  | (_, Raise e) => Raise e
  end.

End Driver.

(** The circuit [get_pi_estimate] builds for a qubit count. *)
Definition built_circuit (n_qubits : nat) : circuit :=
  fst (estimation_circuit n_qubits (QuantumCircuit (n_qubits + 1) n_qubits)).

(** ** Reading a session *)

(** The estimate lines among the printed lines. *)
Fixpoint estimate_lines (out : list out_line) : list (nat * pyfloat) :=
  match out with
  | [] => []
  | EstimateLine nq e :: out' => (nq, e) :: estimate_lines out'
  | JobStatus _ :: out' => estimate_lines out'
  end.

(** The circuits submitted to a backend, oldest first. *)
Definition submitted (s : session) : list circuit := map job_circ (jobs s).

Fixpoint all_bits (s : string) : bool :=
  match s with
  | EmptyString => true
  | String ch s' => (Ascii.eqb ch "0" || Ascii.eqb ch "1") && all_bits s'
  end.

(** An outcome of [n] classical bits. *)
Definition is_bitstring (n : nat) (s : string) : bool :=
  (String.length s =? n) && all_bits s.

(** The number a bitstring denotes in binary, most significant bit
    first: the sum of the powers of two at its ones. *)
Fixpoint binary_value (s : string) : Z :=
  match s with
  | EmptyString => 0%Z
  | String ch s' =>
      ((if Ascii.eqb ch "1" then 2 ^ Z.of_nat (String.length s') else 0)
       + binary_value s')%Z
  end.

(** The outcome of [n] ones. *)
Fixpoint ones (n : nat) : string :=
  match n with
  | 0 => EmptyString
  | S n' => String "1" (ones n')
  end.

(** A fresh session. *)
Definition fresh : session := mkSession [] [] [] [].

(** Sample backends for concrete runs. *)
Definition backend_01 (j : job) : result counts :=
  Ok [("01"%string, 7000%Z); ("11"%string, 3000%Z)].

Definition backend_zero (j : job) : result counts :=
  Ok [("00"%string, 10000%Z)].

Definition backend_41 (j : job) : result counts :=
  Ok [("00101000"%string, 2100%Z); ("00101001"%string, 6800%Z);
      ("00101010"%string, 1100%Z)].

(** Four bits, the most frequent outcome 0011 listed second. *)
Definition backend_3 (j : job) : result counts :=
  Ok [("0100"%string, 1500%Z); ("0011"%string, 8500%Z)].

(** A backend that answers for circuits of up to four qubits and
    fails on larger ones. *)
Definition backend_small (j : job) : result counts :=
  if num_qubits (job_circ j) <=? 4
  then Ok [("01"%string, 7000%Z); ("11"%string, 3000%Z)]
  else Raise BackendError.

(** ** Reading a circuit: what was emitted, and how much of each kind *)

(** The instructions a call added to the circuit it was handed. *)
Definition emitted (before after : circuit) : list instr :=
  skipn (List.length (data before)) (data after).

Definition count (f : instr -> bool) (ops : list instr) : nat :=
  List.length (filter f ops).

Definition is_swap (i : instr) : bool :=
  match i with Swap _ _ => true | _ => false end.

Definition is_cu1 (i : instr) : bool :=
  match i with Cu1 _ _ _ => true | _ => false end.

Definition is_h (i : instr) : bool :=
  match i with H _ => true | _ => false end.

(** A controlled rotation by the int angle 1 between [q] and [aux]. *)
Definition is_unit_cu1 (q aux : nat) (i : instr) : bool :=
  match i with
  | Cu1 (IntAngle 1) c t => (c =? q) && (t =? aux)
  | _ => false
  end.

(** A builder run that, on every circuit of at least [w] qubits, adds
    exactly [ops], leaves the registers alone and finishes with [r]. *)
Definition runs {A} (w : nat) (p : prog circuit A) (ops : list instr) (r : result A) : Prop :=
  forall c, w <= num_qubits c -> p c = (add_ops c ops, r).

(** A builder run that, on every circuit and whether it returns or
    raises, only adds instructions, all of them satisfying [P]. *)
Definition emits_only {A} (P : instr -> Prop) (p : prog circuit A) : Prop :=
  forall c, exists ops r, p c = (add_ops c ops, r) /\ Forall P ops.

(** ** The builders as the specification words them *)

(** The angle -pi/2^k. *)
Definition neg_pi_over_pow2 (k : nat) : angle :=
  NegPiOver (inject_Z (2 ^ Z.of_nat k)).

(** Swap qubit [q] with qubit [n-1-q] for each [q < floor(n/2)]. *)
Definition reversal (n : nat) : list instr :=
  map (fun q => Swap q (n - 1 - q)) (seq 0 (n / 2)).

(** For qubit [j]: a rotation controlled on each earlier qubit [m],
    then the Hadamard gate on [j]. *)
Definition rotations_then_h (j : nat) : list instr :=
  map (fun m => Cu1 (neg_pi_over_pow2 (j - m)) m j) (seq 0 j) ++ [H j].

Definition qft_dagger_spec (n : nat) : list instr :=
  reversal n ++ flat_map rotations_then_h (seq 0 n).

(** Hadamards on the first [n] qubits, X on qubit [n], then for qubit
    [q] of the first [n], 2^q unit rotations against qubit [n]. *)
Definition qpe_pre_spec (n : nat) : list instr :=
  map H (seq 0 n) ++ [X n] ++
  flat_map (fun q => repeat (Cu1 (IntAngle 1) q n) (2 ^ q)) (seq 0 n).

(** A call that left the registers alone and kept every instruction
    that was there, in place, adding new ones only at the end. *)
Definition extends (before after : circuit) : Prop :=
  num_qubits after = num_qubits before /\
  num_clbits after = num_clbits before /\
  exists ops, data after = data before ++ ops.

(** ** Further readings of a circuit *)

(** The qubits an instruction acts on. *)
Definition qubits_of (i : instr) : list nat :=
  match i with
  | Swap a b => [a; b]
  | Cu1 _ control target => [control; target]
  | H q => [q]
  | X q => [q]
  | Barrier qs => qs
  | Measure q _ => [q]
  end.

(** An instruction that stays within the first [n] qubits. *)
Definition acts_within (n : nat) (i : instr) : Prop :=
  Forall (fun q => q < n) (qubits_of i).

(** A controlled rotation with control [m] and target [j]. *)
Definition is_rotation_on (m j : nat) (i : instr) : bool :=
  match i with
  | Cu1 _ control target => (control =? m) && (target =? j)
  | _ => false
  end.

(** What [qft_dagger] asks of a rotation: the control lies below the
    target and the angle is -pi over 2 to their distance. *)
Definition rotation_ok (i : instr) : Prop :=
  match i with
  | Cu1 theta control target =>
      control < target /\ theta = neg_pi_over_pow2 (target - control)
  | _ => True
  end.

(** Exchanging positions [a] and [b]. *)
Definition transpose (a b p : nat) : nat :=
  if p =? a then b else if p =? b then a else p.

(** Where the content of qubit [p] sits after the swaps of a list of
    instructions have been carried out in order (the other gates move
    nothing). *)
Definition position_after (ops : list instr) (p : nat) : nat :=
  fold_left (fun p i => match i with Swap a b => transpose a b p | _ => p end) ops p.

(** The name under which the diagram for [n] qubits is saved. *)
Definition diagram_name (n : nat) : string :=
  (Py.str n ++ "_qubit_circuit.png")%string.

(** ** The Standard Library's binary64, for comparison *)

(** The rational a finite binary64 number of the specification
    denotes. *)
Definition SF2Q (f : spec_float) : Q :=
  match f with
  | S754_finite s m e =>
      ((if s then -1 else 1) * inject_Z (Zpos m) * Double.pow2 e)%Q
  | _ => 0%Q
  end.

(** An integer as a binary64 number. *)
Definition Z2SF (z : Z) : spec_float := binary_normalize 53 1024 z 0 false.

(** [1./(2*(k/2**n))] computed by the specification's operations. *)
Definition SF_estimate (k : Z) (n : nat) : spec_float :=
  SFdiv 53 1024 (Z2SF 1)
    (SFmul 53 1024 (Z2SF 2) (SFdiv 53 1024 (Z2SF k) (Z2SF (2 ^ Z.of_nat n)))).

(** * Properties *)

(** ** Sample runs *)

Example qft_dagger_3 :
  qft_dagger 3 (QuantumCircuit 4 3) =
  (mkCircuit 4 3
     [Swap 0 2;
      H 0;
      Cu1 (NegPiOver 2) 0 1; H 1;
      Cu1 (NegPiOver 4) 0 2; Cu1 (NegPiOver 2) 1 2; H 2],
   Ok tt).
Proof. vm_compute. reflexivity. Qed.

Example qpe_pre_2 :
  qpe_pre 2 (QuantumCircuit 3 2) =
  (mkCircuit 3 2
     [H 0; H 1; X 2;
      Cu1 (IntAngle 1) 0 2; Cu1 (IntAngle 1) 1 2; Cu1 (IntAngle 1) 1 2],
   Ok tt).
Proof. vm_compute. reflexivity. Qed.

(** A circuit of two qubits has no qubit 2 for the X gate. *)
Example qpe_pre_2_narrow :
  qpe_pre 2 (QuantumCircuit 2 0) = (mkCircuit 2 0 [H 0; H 1], Raise CircuitError).
Proof. vm_compute. reflexivity. Qed.

(** Two qubits, most frequent outcome 01: theta = 1/4, estimate 2. *)
Example estimate_2_qubits :
  snd (get_pi_estimate backend_01 2 fresh) = Ok (Finite 2).
Proof. vm_compute. reflexivity. Qed.

(** Four qubits, most frequent outcome 3: the double 2.6666666666666665,
    not 8/3. *)
Example estimate_4_qubits :
  snd (get_pi_estimate backend_3 4 fresh)
  = Ok (Finite (6004799503160661 # 2251799813685248)).
Proof. vm_compute. reflexivity. Qed.

(** Eight qubits, most frequent outcome 41: the double the notebook
    prints as 3.1219512195121952. *)
Example estimate_8_qubits :
  snd (get_pi_estimate backend_41 8 fresh)
  = Ok (Finite (3515004587215997 # 1125899906842624)).
Proof. vm_compute. reflexivity. Qed.

Example estimate_zero_mode :
  snd (get_pi_estimate backend_zero 2 fresh) = Raise ZeroDivisionError.
Proof. vm_compute. reflexivity. Qed.

Example saved_file_3_qubits :
  files (fst (get_pi_estimate backend_01 3 fresh)) = ["3_qubit_circuit.png"%string].
Proof. vm_compute. reflexivity. Qed.

(** The rounding of this file and the Standard Library's binary64
    division and multiplication give the same estimates. *)
Example estimate_agrees_with_binary64 :
  Forall (fun kn =>
            Py.fdiv 1 (Py.fmul 2 (Double.round (inject_Z (fst kn) / inject_Z (2 ^ Z.of_nat (snd kn)))))
            = Ok (Finite (Qred (SF2Q (SF_estimate (fst kn) (snd kn))))))
         [(1%Z, 2); (3%Z, 4); (5%Z, 5); (41%Z, 8); (81%Z, 9); (163%Z, 10);
          (1303%Z, 13); ((2 ^ 54 - 1)%Z, 54); ((2 ^ 60 - 3)%Z, 60); (1%Z, 1000)].
Proof. repeat constructor; vm_compute; reflexivity. Qed.

(** ** Rounding to binary64 *)

Section Rounding.

Local Open Scope Q_scope.


Lemma pow2_pos e : 0 < Double.pow2 e.
Proof. apply Qpower_0_lt. reflexivity. Qed.

Lemma pow2_nonzero e : ~ Double.pow2 e == 0.
Proof. intros E. pose proof (pow2_pos e) as H. rewrite E in H. discriminate. Qed.

Lemma pow2_plus a b : Double.pow2 (a + b) == Double.pow2 a * Double.pow2 b.
Proof. apply Qpower_plus. discriminate. Qed.

Lemma pow2_le a b : (a <= b)%Z -> Double.pow2 a <= Double.pow2 b.
Proof. intros H. apply Qpower_le_compat_l; [exact H|discriminate]. Qed.

Lemma pow2_lt a b : (a < b)%Z -> Double.pow2 a < Double.pow2 b.
Proof. intros H. apply Qpower_lt_compat_l; [exact H|reflexivity]. Qed.

Lemma pow2_lt_inv a b : Double.pow2 a < Double.pow2 b -> (a < b)%Z.
Proof. intros H. apply (Qpower_lt_compat_l_inv 2); [exact H|reflexivity]. Qed.

Lemma pow2_inject e : (0 <= e)%Z -> Double.pow2 e == inject_Z (2 ^ e).
Proof. intros H. unfold Double.pow2. now rewrite Zpower_Qpower. Qed.

Lemma pow2_div a b : Double.pow2 (a - b) == Double.pow2 a / Double.pow2 b.
Proof.
  unfold Z.sub. rewrite pow2_plus. unfold Double.pow2 at 2. rewrite Qpower_opp. reflexivity.
Qed.

(** The exponent found by [Double.ilog2] is the binade of [x]. *)
Lemma ilog2_spec x : 0 < x -> Double.pow2 (Double.ilog2 x) <= x /\ x < Double.pow2 (Double.ilog2 x + 1).
Proof.
  intros Hx. destruct x as [a b].
  assert (Ha : (0 < a)%Z) by (unfold Qlt in Hx; simpl in Hx; lia).
  destruct (Z.log2_spec a Ha) as [Ha1 Ha2].
  destruct (Z.log2_spec (Zpos b) (Pos2Z.is_pos b)) as [Hb1 Hb2].
  pose proof (Z.log2_nonneg a) as Hla. pose proof (Z.log2_nonneg (Zpos b)) as Hlb.
  set (la := Z.log2 a) in *. set (lb := Z.log2 (Zpos b)) in *.
  assert (HbQ : 0 < inject_Z (Zpos b)) by reflexivity.
  assert (Hx' : a # b == inject_Z a / inject_Z (Zpos b)) by apply Qmake_Qdiv.
  assert (Hlow : Double.pow2 (la - lb - 1) < a # b).
  { rewrite Hx'. apply Qlt_shift_div_l; [exact HbQ|].
    apply Qlt_le_trans with (Double.pow2 (la - lb - 1) * Double.pow2 (lb + 1)).
    - apply Qmult_lt_l; [apply pow2_pos|].
      rewrite pow2_inject by lia. rewrite <- Zlt_Qlt. exact Hb2.
    - rewrite <- pow2_plus. replace (la - lb - 1 + (lb + 1))%Z with la by lia.
      rewrite pow2_inject by lia. rewrite <- Zle_Qle. exact Ha1. }
  assert (Hhigh : a # b < Double.pow2 (la - lb + 1)).
  { rewrite Hx'. apply Qlt_shift_div_r; [exact HbQ|].
    apply Qlt_le_trans with (Double.pow2 (la + 1)).
    - rewrite pow2_inject by lia. rewrite <- Zlt_Qlt. exact Ha2.
    - replace (la + 1)%Z with (la - lb + 1 + lb)%Z at 1 by lia.
      rewrite pow2_plus. apply Qmult_le_l; [apply pow2_pos|].
      rewrite pow2_inject by lia. rewrite <- Zle_Qle. exact Hb1. }
  unfold Double.ilog2. cbn [Qnum Qden]. fold la lb.
  destruct (Qle_bool (Double.pow2 (la - lb)) (a # b)) eqn:E.
  - apply Qle_bool_iff in E. split; assumption.
  - split; [apply Qlt_le_weak; exact Hlow|].
    replace (la - lb - 1 + 1)%Z with (la - lb)%Z by lia.
    apply Qnot_le_lt. intros Hle. apply Qle_bool_iff in Hle. congruence.
Qed.

Lemma ilog2_unique x e : Double.pow2 e <= x -> x < Double.pow2 (e + 1) -> Double.ilog2 x = e.
Proof.
  intros Hlo Hhi.
  assert (Hx : 0 < x) by (eapply Qlt_le_trans; [apply (pow2_pos e)|exact Hlo]).
  destruct (ilog2_spec x Hx) as [Hlo' Hhi'].
  assert (H1 : (e < Double.ilog2 x + 1)%Z)
    by (apply pow2_lt_inv; eapply Qle_lt_trans; eassumption).
  assert (H2 : (Double.ilog2 x < e + 1)%Z)
    by (apply pow2_lt_inv; eapply Qle_lt_trans; eassumption).
  lia.
Qed.

Lemma ilog2_comp x y : 0 < x -> x == y -> Double.ilog2 x = Double.ilog2 y.
Proof.
  intros Hx E. symmetry. destruct (ilog2_spec x Hx) as [Hlo Hhi].
  apply ilog2_unique; rewrite <- E; assumption.
Qed.

Lemma round_half_even_comp x y : x == y -> Double.round_half_even x = Double.round_half_even y.
Proof.
  intros E. unfold Double.round_half_even.
  rewrite (Qfloor_comp _ _ E).
  assert (E' : x - inject_Z (Qfloor y) == y - inject_Z (Qfloor y)) by now rewrite E.
  now rewrite (Qcompare_comp _ _ E' _ _ (Qeq_refl (1 # 2))).
Qed.

Lemma round_half_even_Z z : Double.round_half_even (inject_Z z) = z.
Proof.
  unfold Double.round_half_even. rewrite Qfloor_Z.
  assert (E : inject_Z z - inject_Z z == 0) by ring.
  now rewrite (Qcompare_comp _ _ E _ _ (Qeq_refl (1 # 2))).
Qed.

Lemma round_pos_comp x y : 0 < x -> x == y -> Double.round_pos x = Double.round_pos y.
Proof.
  intros Hx E. unfold Double.round_pos. rewrite (ilog2_comp x y Hx E).
  apply Qred_complete.
  rewrite (round_half_even_comp (x / Double.pow2 (Z.max (Double.ilog2 y) (-1022) - 52))
             (y / Double.pow2 (Z.max (Double.ilog2 y) (-1022) - 52))) by now rewrite E.
  reflexivity.
Qed.

Lemma round_comp x y : x == y -> Double.round x = Double.round y.
Proof.
  intros E. unfold Double.round. rewrite (Qcompare_comp _ _ E _ _ (Qeq_refl 0)).
  destruct (y ?= 0) eqn:C; [reflexivity| |].
  - f_equal. apply round_pos_comp; [|now rewrite E].
    rewrite <- Qlt_alt in C. rewrite E.
    apply (Qopp_lt_compat y 0) in C. exact C.
  - apply round_pos_comp; [|exact E].
    rewrite <- Qgt_alt in C. now rewrite E.
Qed.

Lemma round_pos x : 0 < x -> Double.round x = Double.round_pos x.
Proof.
  intros Hx. unfold Double.round. rewrite Qgt_alt in Hx. now rewrite Hx.
Qed.

Lemma round_zero x : x == 0 -> Double.round x = 0.
Proof.
  intros E. unfold Double.round. rewrite Qeq_alt in E. now rewrite E.
Qed.

(** A number k * 2^t with k below 2^53 and t at least -1074 is a double:
    rounding leaves it as it is. *)
Lemma round_pos_exact x k t :
  (1 <= k < 2 ^ 53)%Z -> (-1074 <= t)%Z ->
  x == inject_Z k * Double.pow2 t -> Double.round_pos x = Qred x.
Proof.
  intros [Hk1 Hk2] Ht E.
  assert (Hk0 : (0 < k)%Z) by lia.
  destruct (Z.log2_spec k Hk0) as [Hl1 Hl2].
  pose proof (Z.log2_nonneg k) as Hl0.
  assert (Hl52 : (Z.log2 k < 53)%Z) by (apply Z.log2_lt_pow2; lia).
  assert (He : Double.ilog2 x = (Z.log2 k + t)%Z).
  { apply ilog2_unique; rewrite E.
    - rewrite pow2_plus. apply Qmult_le_r; [apply pow2_pos|].
      rewrite pow2_inject by lia. rewrite <- Zle_Qle. exact Hl1.
    - replace (Z.log2 k + t + 1)%Z with (Z.succ (Z.log2 k) + t)%Z by lia.
      rewrite pow2_plus. apply Qmult_lt_r; [apply pow2_pos|].
      rewrite pow2_inject by lia. rewrite <- Zlt_Qlt. exact Hl2. }
  unfold Double.round_pos. rewrite He.
  set (q := (Z.max (Z.log2 k + t) (-1022) - 52)%Z).
  assert (Hq : (q <= t)%Z) by (unfold q; lia).
  assert (Ey : x / Double.pow2 q == inject_Z (k * 2 ^ (t - q))).
  { rewrite E, inject_Z_mult, <- pow2_inject by lia.
    rewrite pow2_div. field. apply pow2_nonzero. }
  rewrite (round_half_even_comp _ _ Ey), round_half_even_Z.
  apply Qred_complete.
  rewrite E, inject_Z_mult, <- pow2_inject by lia.
  rewrite pow2_div. field. apply pow2_nonzero.
Qed.

Lemma round_exact x k t :
  (0 <= k < 2 ^ 53)%Z -> (-1074 <= t)%Z ->
  x == inject_Z k * Double.pow2 t -> Double.round x = Qred x.
Proof.
  intros [Hk1 Hk2] Ht E.
  destruct (Z.eq_dec k 0) as [->|Hk0].
  - assert (E0 : x == 0) by (rewrite E; ring).
    rewrite (round_zero x E0). symmetry.
    change 0 with (Qred 0). now apply Qred_complete.
  - assert (Hx : 0 < x).
    { rewrite E. apply Qmult_lt_0_compat; [|apply pow2_pos].
      change 0 with (inject_Z 0). rewrite <- Zlt_Qlt. lia. }
    rewrite (round_pos x Hx). apply (round_pos_exact x k t); [lia|exact Ht|exact E].
Qed.

Lemma round_half_even_cases y :
  Double.round_half_even y = Qfloor y \/
  (Double.round_half_even y = (Qfloor y + 1)%Z /\ inject_Z (Qfloor y) < y).
Proof.
  unfold Double.round_half_even.
  destruct (y - inject_Z (Qfloor y) ?= 1 # 2) eqn:C.
  - destruct (Z.even (Qfloor y)); [now left|right; split; [reflexivity|]].
    rewrite <- Qeq_alt in C.
    assert (Ey : y == inject_Z (Qfloor y) + (1 # 2)) by (rewrite <- C; ring).
    rewrite Ey at 2. rewrite <- (Qplus_0_r (inject_Z (Qfloor y))) at 1.
    apply Qplus_lt_r. reflexivity.
  - now left.
  - right. split; [reflexivity|]. rewrite <- Qgt_alt in C.
    assert (H0 : 0 < y - inject_Z (Qfloor y))
      by (eapply Qlt_trans; [|exact C]; reflexivity).
    rewrite <- (Qplus_0_r (inject_Z (Qfloor y))).
    assert (Ey : y == inject_Z (Qfloor y) + (y - inject_Z (Qfloor y))) by ring.
    rewrite Ey at 2. apply Qplus_lt_r. exact H0.
Qed.

Lemma round_half_even_ge y z : inject_Z z <= y -> (z <= Double.round_half_even y)%Z.
Proof.
  intros H. apply Qfloor_resp_le in H. rewrite Qfloor_Z in H.
  destruct (round_half_even_cases y) as [->|[-> _]]; lia.
Qed.

Lemma round_half_even_le y z : y <= inject_Z z -> (Double.round_half_even y <= z)%Z.
Proof.
  intros H. pose proof (Qfloor_le y) as Hf.
  destruct (round_half_even_cases y) as [->|[-> Hlt]].
  - rewrite Zle_Qle. eapply Qle_trans; eassumption.
  - assert (Hz : inject_Z (Qfloor y) < inject_Z z) by (eapply Qlt_le_trans; eassumption).
    rewrite <- Zlt_Qlt in Hz. lia.
Qed.

(** In the normal range, rounding stays within the binade of [x]. *)
Lemma round_pos_bounds x :
  0 < x -> (-1022 <= Double.ilog2 x)%Z ->
  Double.pow2 (Double.ilog2 x) <= Double.round_pos x /\ Double.round_pos x <= Double.pow2 (Double.ilog2 x + 1).
Proof.
  intros Hx He. destruct (ilog2_spec x Hx) as [Hlo Hhi].
  unfold Double.round_pos. rewrite Qred_correct.
  replace (Z.max (Double.ilog2 x) (-1022)) with (Double.ilog2 x) by lia.
  set (q := (Double.ilog2 x - 52)%Z).
  assert (Hy1 : inject_Z (2 ^ 52) <= x / Double.pow2 q).
  { apply Qle_shift_div_l; [apply pow2_pos|].
    rewrite <- (pow2_inject 52) by lia. rewrite <- pow2_plus.
    replace (52 + q)%Z with (Double.ilog2 x) by (unfold q; lia). exact Hlo. }
  assert (Hy2 : x / Double.pow2 q <= inject_Z (2 ^ 53)).
  { apply Qle_shift_div_r; [apply pow2_pos|].
    rewrite <- (pow2_inject 53) by lia. rewrite <- pow2_plus.
    replace (53 + q)%Z with (Double.ilog2 x + 1)%Z by (unfold q; lia).
    apply Qlt_le_weak. exact Hhi. }
  apply round_half_even_ge in Hy1. apply round_half_even_le in Hy2.
  split.
  - replace (Double.ilog2 x) with (52 + q)%Z at 1 by (unfold q; lia).
    rewrite pow2_plus. apply Qmult_le_r; [apply pow2_pos|].
    rewrite (pow2_inject 52) by lia. rewrite <- Zle_Qle. exact Hy1.
  - replace (Double.ilog2 x + 1)%Z with (53 + q)%Z by (unfold q; lia).
    rewrite pow2_plus. apply Qmult_le_r; [apply pow2_pos|].
    rewrite (pow2_inject 53) by lia. rewrite <- Zle_Qle. exact Hy2.
Qed.

End Rounding.

(** ** The Python arithmetic of the notebook *)

Section PythonArithmetic.

Local Open Scope Q_scope.

Lemma Qred_inject z : Qred (inject_Z z) = inject_Z z.
Proof. apply Qred_identity. simpl. apply Z.gcd_1_r. Qed.

Lemma Zpow2_pos (n : nat) : (0 < 2 ^ Z.of_nat n)%Z.
Proof. apply Z.pow_pos_nonneg; lia. Qed.

Lemma inject_Z_pos z : (0 < z)%Z -> 0 < inject_Z z.
Proof. intros H. change 0 with (inject_Z 0). rewrite <- Zlt_Qlt. exact H. Qed.

Lemma inject_Z_nonzero z : z <> 0%Z -> ~ inject_Z z == 0.
Proof. intros H E. apply (inject_Z_injective z 0) in E. contradiction. Qed.

Lemma float_limit_above : (2 ^ 1023 < Py.float_limit)%Z.
Proof. vm_compute. reflexivity. Qed.

Lemma float_limit_below : (Py.float_limit <= 2 ^ 1024)%Z.
Proof. vm_compute. discriminate. Qed.

Lemma float_limit_pos : (1 <= Py.float_limit)%Z.
Proof.
  pose proof float_limit_above.
  assert (0 < 2 ^ 1023)%Z by (apply Z.pow_pos_nonneg; lia). lia.
Qed.

(** A power of two up to 2^1023 is a double. *)
Lemma round_pow2 (k : nat) :
  Double.round (inject_Z (2 ^ Z.of_nat k)) = inject_Z (2 ^ Z.of_nat k).
Proof.
  rewrite (round_exact (inject_Z (2 ^ Z.of_nat k)) 1 (Z.of_nat k)).
  - apply Qred_inject.
  - split; [lia|reflexivity].
  - lia.
  - rewrite (pow2_inject (Z.of_nat k)) by lia. ring.
Qed.

Lemma float_pow2 (k : nat) :
  (k <= 1023)%nat -> Py.float (2 ^ Z.of_nat k) = Ok (inject_Z (2 ^ Z.of_nat k)).
Proof.
  intros Hk. unfold Py.float.
  pose proof (Zpow2_pos k) as Hpos.
  assert (Hle : (2 ^ Z.of_nat k <= 2 ^ 1023)%Z) by (apply Z.pow_le_mono_r; lia).
  pose proof float_limit_above as Hlim.
  rewrite Z.abs_eq by lia.
  destruct (Z.ltb_spec (2 ^ Z.of_nat k) Py.float_limit) as [_|Hge].
  - now rewrite round_pow2.
  - exfalso. apply (Z.lt_irrefl (2 ^ 1023)).
    eapply Z.lt_le_trans; [exact Hlim|].
    eapply Z.le_trans; [exact Hge|exact Hle].
Qed.

Lemma float_pow2_overflow (k : nat) :
  (1024 <= k)%nat -> Py.float (2 ^ Z.of_nat k) = Raise OverflowError.
Proof.
  intros Hk. unfold Py.float.
  pose proof (Zpow2_pos k) as Hpos.
  assert (Hle : (2 ^ 1024 <= 2 ^ Z.of_nat k)%Z) by (apply Z.pow_le_mono_r; lia).
  pose proof float_limit_below as Hlim.
  rewrite Z.abs_eq by lia.
  destruct (Z.ltb_spec (2 ^ Z.of_nat k) Py.float_limit) as [Hlt|_]; [|reflexivity].
  exfalso. apply (Z.lt_irrefl (2 ^ Z.of_nat k)).
  eapply Z.lt_le_trans; [exact Hlt|].
  eapply Z.le_trans; [exact Hlim|exact Hle].
Qed.

(** Whenever the conversion of a power of two returns, it is exact. *)
Lemma float_pow2_value (k : nat) d :
  Py.float (2 ^ Z.of_nat k) = Ok d -> d = inject_Z (2 ^ Z.of_nat k).
Proof.
  destruct (le_lt_dec k 1023) as [Hk|Hk].
  - rewrite (float_pow2 k Hk). now intros [= <-].
  - rewrite (float_pow2_overflow k) by lia. discriminate.
Qed.

Lemma neg_pi_div_pow2 (k : nat) :
  neg_pi_div (inject_Z (2 ^ Z.of_nat k)) = Ok (neg_pi_over_pow2 k).
Proof.
  unfold neg_pi_div, neg_pi_over_pow2.
  pose proof (Zpow2_pos k) as Hpos.
  destruct (Qeq_bool (inject_Z (2 ^ Z.of_nat k)) 0) eqn:E; [|reflexivity].
  apply Qeq_bool_iff in E. apply inject_Z_nonzero in E; [contradiction|lia].
Qed.

(** [int] on a float that is not negative is the floor. *)
Lemma int_floor q : 0 <= q -> Py.int q = Qfloor q.
Proof.
  destruct q as [a b]. unfold Qle, Py.int, Qfloor. simpl. intros Ha.
  apply Z.quot_div_nonneg; lia.
Qed.

(** Halving a qubit count by true division and truncation is floor
    division, the count being far below 2^53. *)
Lemma truediv_half (n : nat) :
  (n <= 2048)%nat ->
  exists half,
    Py.truediv (Z.of_nat n) 2 = Ok half /\ Z.to_nat (Py.int half) = (n / 2)%nat.
Proof.
  intros Hn. unfold Py.truediv.
  change (2 =? 0)%Z with false. cbv iota.
  pose proof float_limit_above as Hlim.
  assert (H2048 : (2048 < 2 ^ 1023)%Z) by (vm_compute; reflexivity).
  assert (H53 : (2048 < 2 ^ 53)%Z) by (vm_compute; reflexivity).
  destruct (Z.leb_spec (Py.float_limit * Z.abs 2) (Z.abs (Z.of_nat n))) as [Hle|_].
  { exfalso. change (Z.abs 2) with 2%Z in Hle. rewrite Z.abs_eq in Hle by lia. lia. }
  eexists. split; [reflexivity|].
  rewrite (round_exact (inject_Z (Z.of_nat n) / inject_Z 2) (Z.of_nat n) (-1)).
  - assert (Hq : 0 <= inject_Z (Z.of_nat n) / inject_Z 2).
    { apply Qle_shift_div_l; [reflexivity|]. rewrite Qmult_0_l.
      change 0 with (inject_Z 0). rewrite <- Zle_Qle. lia. }
    rewrite int_floor by (rewrite Qred_correct; exact Hq).
    rewrite (Qfloor_comp _ _ (Qred_correct _)).
    rewrite <- Zdiv_Qdiv.
    change 2%Z with (Z.of_nat 2). rewrite <- Nat2Z.inj_div. apply Nat2Z.id.
  - lia.
  - lia.
  - unfold Qdiv. apply Qmult_comp; reflexivity.
Qed.

(** The phase of an outcome below 2^53 is computed exactly. *)
Lemma truediv_pow2 k (n : nat) :
  (0 <= k < 2 ^ Z.of_nat n)%Z -> (k < 2 ^ 53)%Z -> (n <= 1074)%nat ->
  Py.truediv k (2 ^ Z.of_nat n)
  = Ok (Qred (inject_Z k / inject_Z (2 ^ Z.of_nat n))).
Proof.
  intros Hk Hk53 Hn. unfold Py.truediv. pose proof (Zpow2_pos n) as Hp.
  pose proof float_limit_pos as Hl.
  destruct (Z.eqb_spec (2 ^ Z.of_nat n) 0); [lia|].
  destruct (Z.leb_spec (Py.float_limit * Z.abs (2 ^ Z.of_nat n)) (Z.abs k)) as [Hle|_].
  { rewrite !Z.abs_eq in Hle by lia. nia. }
  f_equal. apply (round_exact _ k (- Z.of_nat n)); [lia|lia|].
  unfold Qdiv. apply Qmult_comp; [reflexivity|].
  rewrite <- (pow2_inject (Z.of_nat n)) by lia.
  unfold Double.pow2. now rewrite Qpower_opp.
Qed.

Lemma truediv_zero (n : nat) : Py.truediv 0 (2 ^ Z.of_nat n) = Ok 0.
Proof.
  unfold Py.truediv. pose proof (Zpow2_pos n) as Hp.
  pose proof float_limit_pos as Hl.
  destruct (Z.eqb_spec (2 ^ Z.of_nat n) 0); [lia|].
  destruct (Z.leb_spec (Py.float_limit * Z.abs (2 ^ Z.of_nat n)) (Z.abs 0)) as [Hle|_].
  { change (Z.abs 0) with 0%Z in Hle. rewrite Z.abs_eq in Hle by lia. nia. }
  f_equal; try (apply round_zero; unfold Qdiv; apply Qmult_0_l).
Qed.

Lemma estimate_zero_mode_raise :
  Py.fdiv 1 (Py.fmul 2 0) = Raise ZeroDivisionError.
Proof. vm_compute. reflexivity. Qed.

Lemma overflow_finite p a :
  0 <= p -> p <= Double.pow2 a -> (a <= 1023)%Z -> Py.overflow p = Finite p.
Proof.
  intros Hp Hpa Ha. unfold Py.overflow.
  destruct (Qle_bool (inject_Z (2 ^ 1024)) (Qabs p)) eqn:E; [|reflexivity].
  exfalso. apply Qle_bool_iff in E. rewrite (Qabs_pos p Hp) in E.
  rewrite <- (pow2_inject 1024) in E by lia.
  assert (Hlt : Double.pow2 a < Double.pow2 1024) by (apply pow2_lt; lia).
  apply (Qlt_irrefl (Double.pow2 1024)).
  eapply Qle_lt_trans; [exact E|]. eapply Qle_lt_trans; [exact Hpa|exact Hlt].
Qed.

Lemma pow2_le_inv a b : Double.pow2 a <= Double.pow2 b -> (a <= b)%Z.
Proof. intros H. apply (Qpower_le_compat_l_inv 2); [exact H|reflexivity]. Qed.

(** Rounding does not cross a power of two. *)
Lemma round_pos_le_pow2 x a :
  0 < x -> x <= Double.pow2 a -> (-1022 <= Double.ilog2 x)%Z ->
  Double.round_pos x <= Double.pow2 a.
Proof.
  intros Hx Hxa He. destruct (ilog2_spec x Hx) as [Hlo Hhi].
  destruct (Qle_lt_or_eq _ _ Hxa) as [Hlt|Heq].
  - destruct (round_pos_bounds x Hx He) as [_ Hup].
    eapply Qle_trans; [exact Hup|]. apply pow2_le.
    assert (Double.ilog2 x < a)%Z
      by (apply pow2_lt_inv; eapply Qle_lt_trans; eassumption).
    lia.
  - assert (Hea : (Double.ilog2 x <= a)%Z)
      by (apply pow2_le_inv; eapply Qle_trans; eassumption).
    rewrite (round_pos_exact x 1 a); [rewrite Qred_correct; exact Hxa| | |].
    + split; [lia|reflexivity].
    + lia.
    + rewrite Heq. ring.
Qed.

Lemma round_pos_ge_pow2 x a :
  Double.pow2 a <= x -> (-1022 <= a)%Z -> Double.pow2 a <= Double.round_pos x.
Proof.
  intros Hax Ha.
  assert (Hx : 0 < x) by (eapply Qlt_le_trans; [apply (pow2_pos a)|exact Hax]).
  destruct (ilog2_spec x Hx) as [Hlo Hhi].
  assert (Hae : (a < Double.ilog2 x + 1)%Z)
    by (apply pow2_lt_inv; eapply Qle_lt_trans; eassumption).
  destruct (round_pos_bounds x Hx) as [Hdown _]; [lia|].
  eapply Qle_trans; [|exact Hdown]. apply pow2_le. lia.
Qed.

(** The quantity 2^(n-1)/k that the estimate approximates. *)
Lemma estimate_exact_bounds k (n : nat) :
  (1 <= n)%nat -> (1 <= k < 2 ^ Z.of_nat n)%Z ->
  Double.pow2 (-1) <= inject_Z (2 ^ (Z.of_nat n - 1)) / inject_Z k /\
  inject_Z (2 ^ (Z.of_nat n - 1)) / inject_Z k <= Double.pow2 (Z.of_nat n - 1).
Proof.
  intros Hn [Hk1 Hk2].
  assert (Hpow : (2 ^ Z.of_nat n = 2 * 2 ^ (Z.of_nat n - 1))%Z).
  { replace (Z.of_nat n) with (Z.succ (Z.of_nat n - 1)) at 1 by lia.
    apply Z.pow_succ_r. lia. }
  assert (Hm : (0 < 2 ^ (Z.of_nat n - 1))%Z) by (apply Z.pow_pos_nonneg; lia).
  assert (HkQ : 0 < inject_Z k) by (apply inject_Z_pos; lia).
  split.
  - apply Qle_shift_div_l; [exact HkQ|].
    change (Double.pow2 (-1)) with (/ 2). unfold Qle, Qmult, Qinv, inject_Z.
    cbn [Qnum Qden]. lia.
  - apply Qle_shift_div_r; [exact HkQ|].
    rewrite (pow2_inject (Z.of_nat n - 1)) by lia.
    rewrite <- inject_Z_mult, <- Zle_Qle. nia.
Qed.

(** For an outcome k below 2^53, [1./(2*theta)] is the double nearest
    to 2^(n-1)/k. *)
Lemma estimate_value k (n : nat) :
  (1 <= n <= 1024)%nat -> (1 <= k < 2 ^ Z.of_nat n)%Z -> (k < 2 ^ 53)%Z ->
  Py.fdiv 1 (Py.fmul 2 (Qred (inject_Z k / inject_Z (2 ^ Z.of_nat n))))
  = Ok (Finite (Double.round (inject_Z (2 ^ (Z.of_nat n - 1)) / inject_Z k))).
Proof.
  intros Hn Hk Hk53.
  assert (Hpow : (2 ^ Z.of_nat n = 2 * 2 ^ (Z.of_nat n - 1))%Z).
  { replace (Z.of_nat n) with (Z.succ (Z.of_nat n - 1)) at 1 by lia.
    apply Z.pow_succ_r. lia. }
  assert (Hm : (0 < 2 ^ (Z.of_nat n - 1))%Z) by (apply Z.pow_pos_nonneg; lia).
  assert (HmQ : ~ inject_Z (2 ^ (Z.of_nat n - 1)) == 0) by (apply inject_Z_nonzero; lia).
  assert (HkQ : ~ inject_Z k == 0) by (apply inject_Z_nonzero; lia).
  set (theta := Qred (inject_Z k / inject_Z (2 ^ Z.of_nat n))).
  assert (Etheta : 2 * theta == inject_Z k / inject_Z (2 ^ (Z.of_nat n - 1))).
  { unfold theta. rewrite Qred_correct, Hpow, inject_Z_mult.
    change (inject_Z 2) with 2. field. exact HmQ. }
  assert (Edouble : Double.round (2 * theta) = Qred (2 * theta)).
  { apply (round_exact _ k (1 - Z.of_nat n)); [lia|lia|].
    rewrite Etheta. unfold Qdiv. apply Qmult_comp; [reflexivity|].
    rewrite <- (pow2_inject (Z.of_nat n - 1)) by lia.
    replace (1 - Z.of_nat n)%Z with (- (Z.of_nat n - 1))%Z by lia.
    unfold Double.pow2. now rewrite Qpower_opp. }
  assert (Hy : 0 < 2 * theta /\ 2 * theta <= Double.pow2 1).
  { rewrite Etheta. split.
    - apply Qlt_shift_div_l; [apply inject_Z_pos; lia|].
      rewrite Qmult_0_l. apply inject_Z_pos. lia.
    - apply Qle_shift_div_r; [apply inject_Z_pos; lia|].
      change (Double.pow2 1) with 2. change 2 with (inject_Z 2).
      rewrite <- inject_Z_mult, <- Zle_Qle. lia. }
  unfold Py.fmul. rewrite Edouble.
  rewrite (overflow_finite (Qred (2 * theta)) 1);
    [|rewrite Qred_correct; apply Qlt_le_weak, Hy|rewrite Qred_correct; apply Hy|lia].
  unfold Py.fdiv.
  destruct (Qeq_bool (Qred (2 * theta)) 0) eqn:E0.
  { exfalso. apply Qeq_bool_iff in E0. rewrite Qred_correct in E0.
    destruct Hy as [Hy _]. rewrite E0 in Hy. discriminate. }
  assert (Ex : 1 / Qred (2 * theta)
               == inject_Z (2 ^ (Z.of_nat n - 1)) / inject_Z k).
  { rewrite Qred_correct, Etheta. field. split; assumption. }
  rewrite (round_comp _ _ Ex).
  destruct (estimate_exact_bounds k n) as [Hlo Hhi]; [lia|lia|].
  set (x := inject_Z (2 ^ (Z.of_nat n - 1)) / inject_Z k) in *.
  assert (Hx : 0 < x) by (eapply Qlt_le_trans; [apply (pow2_pos (-1))|exact Hlo]).
  rewrite (round_pos x Hx).
  assert (He : (-1022 <= Double.ilog2 x)%Z).
  { destruct (ilog2_spec x Hx) as [_ Hup].
    assert (-1 < Double.ilog2 x + 1)%Z
      by (apply pow2_lt_inv; eapply Qle_lt_trans; eassumption).
    lia. }
  rewrite (overflow_finite (Double.round_pos x) (Z.of_nat n - 1)); [reflexivity| | |lia].
  - eapply Qle_trans; [apply Qlt_le_weak, (pow2_pos (-1))|].
    apply round_pos_ge_pow2; [exact Hlo|lia].
  - apply round_pos_le_pow2; assumption.
Qed.

End PythonArithmetic.

(** ** The monad and its loops on circuits *)

Lemma add_ops_nil c : add_ops c [] = c.
Proof. destruct c; unfold add_ops; simpl. now rewrite app_nil_r. Qed.

Lemma add_ops_app c ops1 ops2 :
  add_ops (add_ops c ops1) ops2 = add_ops c (ops1 ++ ops2).
Proof. unfold add_ops; simpl. now rewrite app_assoc. Qed.

Lemma emitted_add_ops c ops : emitted c (add_ops c ops) = ops.
Proof.
  unfold emitted, add_ops; simpl.
  rewrite skipn_app, skipn_all, Nat.sub_diag. reflexivity.
Qed.

Lemma extends_add_ops c ops : extends c (add_ops c ops).
Proof. repeat split. now exists ops. Qed.

Lemma bind_ok {S A B} (p : prog S A) (k : A -> prog S B) s s' a :
  p s = (s', Ok a) -> bind p k s = k a s'.
Proof. intros Hp. unfold bind. now rewrite Hp. Qed.

Lemma bind_raise {S A B} (p : prog S A) (k : A -> prog S B) s s' e :
  p s = (s', Raise e) -> bind p k s = (s', Raise e).
Proof. intros Hp. unfold bind. now rewrite Hp. Qed.

Lemma qubits_ok_spec qs c :
  qubits_ok qs c = true <-> Forall (fun q => q < num_qubits c) qs.
Proof.
  unfold qubits_ok. rewrite forallb_forall, Forall_forall.
  split; intros Hall q Hq; specialize (Hall q Hq); now apply Nat.ltb_lt.
Qed.

Lemma qubits_ok_wide w qs c :
  w <= num_qubits c -> Forall (fun q => q < w) qs -> qubits_ok qs c = true.
Proof.
  intros Hw Hqs. apply qubits_ok_spec.
  eapply Forall_impl; [|exact Hqs]. simpl. intros q Hq. lia.
Qed.

Lemma runs_append_if w accepted ops :
  (forall c, w <= num_qubits c -> accepted c = true) ->
  runs w (append_if accepted ops) ops (Ok tt).
Proof. intros Hacc c Hc. unfold append_if. now rewrite (Hacc c Hc). Qed.

Lemma runs_swap w a b :
  a < w -> b < w -> a <> b -> runs w (swap a b) [Swap a b] (Ok tt).
Proof.
  intros Ha Hb Hab. apply runs_append_if. intros c Hc.
  rewrite (qubits_ok_wide w) by (try assumption; repeat constructor; assumption).
  apply Nat.eqb_neq in Hab. now rewrite Hab.
Qed.

Lemma runs_cu1 w theta a b :
  a < w -> b < w -> a <> b -> runs w (cu1 theta a b) [Cu1 theta a b] (Ok tt).
Proof.
  intros Ha Hb Hab. apply runs_append_if. intros c Hc.
  rewrite (qubits_ok_wide w) by (try assumption; repeat constructor; assumption).
  apply Nat.eqb_neq in Hab. now rewrite Hab.
Qed.

Lemma runs_h w q : q < w -> runs w (h q) [H q] (Ok tt).
Proof.
  intros Hq. apply runs_append_if. intros c Hc.
  apply (qubits_ok_wide w); [assumption|repeat constructor; assumption].
Qed.

Lemma runs_x w q : q < w -> runs w (x q) [X q] (Ok tt).
Proof.
  intros Hq. apply runs_append_if. intros c Hc.
  apply (qubits_ok_wide w); [assumption|repeat constructor; assumption].
Qed.

Lemma runs_h_each w qs :
  qs <> [] -> Forall (fun q => q < w) qs -> runs w (h_each qs) (map H qs) (Ok tt).
Proof.
  intros Hne Hqs. apply runs_append_if. intros c Hc.
  rewrite (qubits_ok_wide w qs c Hc Hqs).
  destruct qs; [congruence|reflexivity].
Qed.

Lemma runs_lift {A} w (r : result A) : runs w (lift r) [] r.
Proof. intros c _. unfold lift. now rewrite add_ops_nil. Qed.

Lemma runs_ret {A} w (a : A) : runs w (ret a) [] (Ok a).
Proof. intros c _. unfold ret. now rewrite add_ops_nil. Qed.

Lemma runs_bind {A B} w (p : prog circuit A) (k : A -> prog circuit B) ops1 a ops2 r :
  runs w p ops1 (Ok a) -> runs w (k a) ops2 r -> runs w (bind p k) (ops1 ++ ops2) r.
Proof.
  intros Hp Hk c Hc. unfold bind. rewrite (Hp c Hc), (Hk (add_ops c ops1) Hc).
  now rewrite add_ops_app.
Qed.

Lemma runs_bind_raise {A B} w (p : prog circuit A) (k : A -> prog circuit B) ops e :
  runs w p ops (Raise e) -> runs w (bind p k) ops (Raise e).
Proof. intros Hp c Hc. unfold bind. now rewrite (Hp c Hc). Qed.

Lemma runs_bind_lift {A B} w (a : A) (k : A -> prog circuit B) ops r :
  runs w (k a) ops r -> runs w (bind (lift (Ok a)) k) ops r.
Proof. intros Hk c Hc. unfold bind, lift. now apply Hk. Qed.

Lemma runs_for_each {A} w (xs : list A) (body : A -> prog circuit unit) f :
  (forall a, In a xs -> runs w (body a) (f a) (Ok tt)) ->
  runs w (for_each xs body) (flat_map f xs) (Ok tt).
Proof.
  induction xs as [|a xs IH]; intros Hbody; simpl.
  - apply runs_ret.
  - eapply runs_bind.
    + apply Hbody. now left.
    + apply IH. intros b Hb. apply Hbody. now right.
Qed.

Lemma runs_for_each_raise {A} w (xs ys : list A) a (body : A -> prog circuit unit) f ops e :
  (forall b, In b xs -> runs w (body b) (f b) (Ok tt)) ->
  runs w (body a) ops (Raise e) ->
  runs w (for_each (xs ++ a :: ys) body) (flat_map f xs ++ ops) (Raise e).
Proof.
  induction xs as [|b xs IH]; intros Hbody Ha; simpl.
  - now apply runs_bind_raise.
  - rewrite <- app_assoc. eapply runs_bind.
    + apply Hbody. now left.
    + apply IH; [|exact Ha]. intros b' Hb'. apply Hbody. now right.
Qed.

Lemma runs_emitted {A} w (p : prog circuit A) ops r c :
  w <= num_qubits c -> runs w p ops r ->
  emitted c (fst (p c)) = ops /\ snd (p c) = r.
Proof. intros Hc Hp. rewrite (Hp c Hc). simpl. now rewrite emitted_add_ops. Qed.

Lemma flat_map_singleton {A B} (f : A -> B) xs :
  flat_map (fun a => [f a]) xs = map f xs.
Proof. induction xs; simpl; congruence. Qed.

(** What a builder emits on any circuit, also when it raises. *)

Lemma emits_only_append_if P accepted ops :
  Forall P ops -> emits_only P (append_if accepted ops).
Proof.
  intros Hops c. unfold append_if. destruct (accepted c).
  - exists ops, (Ok tt). now split.
  - exists [], (Raise CircuitError). rewrite add_ops_nil. now split.
Qed.

Lemma emits_only_ret {A} P (a : A) : emits_only P (ret (S := circuit) a).
Proof. intros c. exists [], (Ok a). unfold ret. rewrite add_ops_nil. now split. Qed.

Lemma emits_only_bind {A B} P (p : prog circuit A) (k : A -> prog circuit B) :
  emits_only P p -> (forall a, emits_only P (k a)) -> emits_only P (bind p k).
Proof.
  intros Hp Hk c. destruct (Hp c) as (ops1 & r1 & E1 & H1).
  unfold bind. rewrite E1. destruct r1 as [a|e].
  - destruct (Hk a (add_ops c ops1)) as (ops2 & r2 & E2 & H2).
    exists (ops1 ++ ops2), r2. rewrite E2, add_ops_app. split; [reflexivity|].
    apply Forall_app. now split.
  - exists ops1, (Raise e). now split.
Qed.

Lemma emits_only_bind_lift {A B} P (r : result A) (k : A -> prog circuit B) :
  (forall a, r = Ok a -> emits_only P (k a)) -> emits_only P (bind (lift r) k).
Proof.
  intros Hk c. unfold bind, lift. destruct r as [a|e].
  - apply (Hk a eq_refl).
  - exists [], (Raise e). rewrite add_ops_nil. now split.
Qed.

Lemma emits_only_for_each {A} P (xs : list A) (body : A -> prog circuit unit) :
  (forall a, In a xs -> emits_only P (body a)) -> emits_only P (for_each xs body).
Proof.
  induction xs as [|a xs IH]; intros Hbody; simpl.
  - apply emits_only_ret.
  - apply emits_only_bind.
    + apply Hbody. now left.
    + intros _. apply IH. intros b Hb. apply Hbody. now right.
Qed.

Lemma emits_only_emitted {A} P (p : prog circuit A) c :
  emits_only P p -> Forall P (emitted c (fst (p c))) /\ extends c (fst (p c)).
Proof.
  intros Hp. destruct (Hp c) as (ops & r & E & Hops). rewrite E. simpl.
  rewrite emitted_add_ops. split; [exact Hops|apply extends_add_ops].
Qed.

(** A loop with a step that raises whatever the circuit does not
    complete. *)
Lemma for_each_never_ok {S A} (xs : list A) a (body : A -> prog S unit) :
  In a xs -> (forall s, snd (body a s) <> Ok tt) ->
  forall s, snd (for_each xs body s) <> Ok tt.
Proof.
  induction xs as [|b xs IH]; intros Hin Ha s; [destruct Hin|].
  simpl. unfold bind. destruct (body b s) as [s1 [[]|e]] eqn:E.
  - destruct Hin as [->|Hin].
    + exfalso. apply (Ha s). now rewrite E.
    + now apply IH.
  - discriminate.
Qed.

Lemma bind_never_ok {S A} (p : prog S A) (k : A -> prog S unit) :
  (forall a s, snd (k a s) <> Ok tt) -> forall s, snd (bind p k s) <> Ok tt.
Proof.
  intros Hk s. unfold bind. destruct (p s) as [s1 [a|e]]; [apply Hk|discriminate].
Qed.

Lemma bind_never_ok_left {S A B} (p : prog S A) (k : A -> prog S B) b :
  (forall s a, snd (p s) <> Ok a) -> forall s, snd (bind p k s) <> Ok b.
Proof.
  intros Hp s. unfold bind. specialize (Hp s). destruct (p s) as [s1 [a|e]].
  - exfalso. now apply (Hp a).
  - discriminate.
Qed.

(** ** [qft_dagger] *)

Lemma half_bound n q : q < n / 2 -> q < n - 1 - q /\ n - 1 - q < n.
Proof. intros Hq. pose proof (Nat.Div0.mul_div_le n 2). lia. Qed.

Lemma runs_swaps w n k :
  k <= n / 2 -> n <= w ->
  runs w (for_each (Py.range k) (fun qubit => swap qubit (n - qubit - 1)))
       (map (fun q => Swap q (n - 1 - q)) (seq 0 k)) (Ok tt).
Proof.
  intros Hk Hw. rewrite <- flat_map_singleton.
  apply runs_for_each. intros q Hq. apply in_seq in Hq.
  assert (Hq' : q < n / 2) by lia.
  destruct (half_bound n q Hq') as [H1 H2].
  replace (n - 1 - q) with (n - q - 1) by lia.
  apply runs_swap; lia.
Qed.

Lemma runs_rotation w j m :
  m < j -> j < w -> j - m <= 1023 ->
  runs w (d <- lift (Py.float (2 ^ Z.of_nat (j - m))) ;;
          theta <- lift (neg_pi_div d) ;;
          cu1 theta m j)
       [Cu1 (neg_pi_over_pow2 (j - m)) m j] (Ok tt).
Proof.
  intros Hm Hj Hjm. rewrite (float_pow2 (j - m) Hjm).
  apply runs_bind_lift.
  rewrite neg_pi_div_pow2.
  apply runs_bind_lift.
  apply runs_cu1; lia.
Qed.

Lemma runs_rotation_overflow w j m :
  1024 <= j - m ->
  runs w (d <- lift (Py.float (2 ^ Z.of_nat (j - m))) ;;
          theta <- lift (neg_pi_div d) ;;
          cu1 theta m j)
       [] (Raise OverflowError).
Proof.
  intros Hjm. rewrite (float_pow2_overflow (j - m) Hjm).
  apply runs_bind_raise, runs_lift.
Qed.

(** One round of the outer loop, for a target qubit within range. *)
Lemma runs_round w j :
  j <= 1023 -> j < w ->
  runs w (for_each (Py.range j) (fun m =>
            d <- lift (Py.float (2 ^ Z.of_nat (j - m))) ;;
            theta <- lift (neg_pi_div d) ;;
            cu1 theta m j) ;;
          h j)
       (rotations_then_h j) (Ok tt).
Proof.
  intros Hj Hw. unfold rotations_then_h.
  eapply runs_bind; [|apply runs_h; exact Hw].
  rewrite <- flat_map_singleton.
  apply runs_for_each. intros m Hm. apply in_seq in Hm.
  apply runs_rotation; lia.
Qed.

(** The round for target qubit 1024 stops at its first rotation. *)
Lemma runs_round_overflow w :
  runs w (for_each (Py.range 1024) (fun m =>
            d <- lift (Py.float (2 ^ Z.of_nat (1024 - m))) ;;
            theta <- lift (neg_pi_div d) ;;
            cu1 theta m 1024) ;;
          h 1024)
       [] (Raise OverflowError).
Proof.
  apply runs_bind_raise.
  change (Py.range 1024) with (seq 0 (S 1023)).
  rewrite <- cons_seq.
  apply (runs_for_each_raise w [] (seq 1 1023) 0 _ (fun _ : nat => @nil instr)).
  - intros b [].
  - apply runs_rotation_overflow. lia.
Qed.

Lemma runs_rounds w n :
  n <= 1024 -> n <= w ->
  runs w (for_each (Py.range2 0 n) (fun j =>
            for_each (Py.range j) (fun m =>
              d <- lift (Py.float (2 ^ Z.of_nat (j - m))) ;;
              theta <- lift (neg_pi_div d) ;;
              cu1 theta m j) ;;
            h j))
       (flat_map rotations_then_h (seq 0 n)) (Ok tt).
Proof.
  intros Hn Hw. unfold Py.range2. rewrite Nat.sub_0_r.
  apply runs_for_each. intros j Hj. apply in_seq in Hj.
  apply runs_round; lia.
Qed.

Lemma runs_rounds_overflow w n :
  1024 < n -> n <= w ->
  runs w (for_each (Py.range2 0 n) (fun j =>
            for_each (Py.range j) (fun m =>
              d <- lift (Py.float (2 ^ Z.of_nat (j - m))) ;;
              theta <- lift (neg_pi_div d) ;;
              cu1 theta m j) ;;
            h j))
       (flat_map rotations_then_h (seq 0 1024)) (Raise OverflowError).
Proof.
  intros Hn Hw. unfold Py.range2. rewrite Nat.sub_0_r.
  replace n with (1024 + S (n - 1025)) by lia.
  rewrite (seq_app 1024 (S (n - 1025)) 0). rewrite <- (cons_seq (n - 1025)).
  rewrite <- (app_nil_r (flat_map rotations_then_h (seq 0 1024))).
  apply runs_for_each_raise.
  - intros j Hj. apply in_seq in Hj. apply runs_round; lia.
  - apply runs_round_overflow.
Qed.

(** Within the limit, on a circuit of at least n qubits, the builder
    completes and emits the specified sequence. *)
Lemma qft_dagger_runs w n :
  n <= 1024 -> n <= w -> runs w (qft_dagger n) (qft_dagger_spec n) (Ok tt).
Proof.
  intros Hn Hw. unfold qft_dagger, qft_dagger_spec, reversal.
  destruct (truediv_half n) as (half & E & Hhalf); [lia|].
  rewrite E. apply runs_bind_lift. rewrite Hhalf.
  eapply runs_bind; [apply runs_swaps; [reflexivity|exact Hw]|].
  now apply runs_rounds.
Qed.

(** The smallest qubit count beyond the limit, on a circuit that has
    that many qubits. *)
Lemma qft_dagger_1025 :
  runs 1025 (qft_dagger 1025)
       (reversal 1025 ++ flat_map rotations_then_h (seq 0 1024))
       (Raise OverflowError).
Proof.
  unfold qft_dagger, reversal.
  destruct (truediv_half 1025) as (half & E & Hhalf); [lia|].
  rewrite E. apply runs_bind_lift. rewrite Hhalf.
  eapply runs_bind; [apply runs_swaps; [reflexivity|lia]|].
  apply runs_rounds_overflow; lia.
Qed.

Lemma for_each_cons {S A} (a : A) xs (body : A -> prog S unit) :
  for_each (a :: xs) body = bind (body a) (fun _ => for_each xs body).
Proof. reflexivity. Qed.

(** Beyond the limit the builder never returns, on any circuit. *)
Lemma qft_dagger_never_ok n c : 1024 < n -> snd (qft_dagger n c) <> Ok tt.
Proof.
  intros Hn. unfold qft_dagger. apply bind_never_ok. intros half.
  apply bind_never_ok. intros _.
  apply (for_each_never_ok _ 1024).
  - unfold Py.range2. apply in_seq. lia.
  - apply bind_never_ok_left. intros s a.
    unfold Py.range. rewrite <- (cons_seq 1023 0), for_each_cons.
    unfold bind at 1, bind at 1, lift.
    rewrite (float_pow2_overflow (1024 - 0)) by lia. discriminate.
Qed.

Lemma swap_refused a b c :
  num_qubits c <= b -> swap a b c = (c, Raise CircuitError).
Proof.
  intros Hb. unfold swap, append_if, qubits_ok. simpl.
  destruct (Nat.ltb_spec b (num_qubits c)); [lia|].
  now rewrite !andb_false_r.
Qed.

Lemma h_refused q c : num_qubits c <= q -> h q c = (c, Raise CircuitError).
Proof.
  intros Hq. unfold h, append_if, qubits_ok. simpl.
  destruct (Nat.ltb_spec q (num_qubits c)); [lia|reflexivity].
Qed.

Lemma x_refused q c : num_qubits c <= q -> x q c = (c, Raise CircuitError).
Proof.
  intros Hq. unfold x, append_if, qubits_ok. simpl.
  destruct (Nat.ltb_spec q (num_qubits c)); [lia|reflexivity].
Qed.

(** On a circuit of fewer than n qubits the builder raises at its
    first gate and appends nothing. *)
Lemma qft_dagger_narrow n c :
  n <= 1024 -> num_qubits c < n -> qft_dagger n c = (c, Raise CircuitError).
Proof.
  intros Hn Hc. unfold qft_dagger.
  destruct (truediv_half n) as (half & E & Hhalf); [lia|].
  rewrite E. unfold bind at 1, lift. rewrite Hhalf.
  destruct (n / 2) as [|k] eqn:Ek.
  - assert (n = 1) by (pose proof (Nat.div_mod_eq n 2);
                       pose proof (Nat.mod_upper_bound n 2); lia).
    subst n. simpl. unfold bind at 1, ret. unfold bind at 1.
    unfold bind at 1, ret. rewrite (h_refused 0 c) by lia. reflexivity.
  - unfold Py.range. rewrite <- cons_seq. simpl for_each.
    unfold bind at 1, bind at 1.
    rewrite (swap_refused 0 (n - 0 - 1) c) by lia. reflexivity.
Qed.

(** ** [qpe_pre] *)

Lemma flat_map_const_seq {B} (b : B) a k :
  flat_map (fun _ : nat => [b]) (seq a k) = repeat b k.
Proof. revert a. induction k as [|k IH]; intros a; simpl; [|rewrite IH]; reflexivity. Qed.

Lemma runs_repeated w theta a b k :
  a < w -> b < w -> a <> b ->
  runs w (for_each (Py.range k) (fun _ => cu1 theta a b))
       (repeat (Cu1 theta a b) k) (Ok tt).
Proof.
  intros Ha Hb Hab. unfold Py.range.
  rewrite <- (flat_map_const_seq (Cu1 theta a b) 0 k).
  apply runs_for_each. intros _ _. now apply runs_cu1.
Qed.

(** Counting down [x] from [n-1] visits qubit [n-1-x] in increasing
    order. *)
Lemma mirror_rev_seq n : map (fun x_ => n - 1 - x_) (rev (seq 0 n)) = seq 0 n.
Proof.
  induction n as [|n IH]; [reflexivity|].
  rewrite seq_S at 1. rewrite rev_app_distr. simpl rev. simpl app.
  rewrite map_cons. replace (S n - 1 - n) with 0 by lia.
  rewrite <- cons_seq, <- seq_shift. f_equal.
  rewrite <- IH at 2. rewrite map_map. apply map_ext_in.
  intros a Ha. apply in_rev, in_seq in Ha. lia.
Qed.

Lemma flat_map_mirror {B} (f : nat -> list B) n :
  flat_map (fun x_ => f (n - 1 - x_)) (rev (seq 0 n)) = flat_map f (seq 0 n).
Proof.
  rewrite <- (mirror_rev_seq n) at 2.
  rewrite flat_map_concat_map, flat_map_concat_map, map_map. reflexivity.
Qed.

Lemma seq_below n : Forall (fun q => q < n) (seq 0 n).
Proof. apply Forall_forall. intros q Hq. apply in_seq in Hq. lia. Qed.

(** From one qubit on, and on a circuit of at least n+1 qubits, the
    builder completes and emits the specified sequence. *)
Lemma qpe_pre_runs w n :
  1 <= n -> n + 1 <= w -> runs w (qpe_pre n) (qpe_pre_spec n) (Ok tt).
Proof.
  intros Hn Hw. unfold qpe_pre, qpe_pre_spec.
  eapply runs_bind.
  { apply runs_h_each.
    - unfold Py.range. destruct n; [lia|discriminate].
    - eapply Forall_impl; [|apply seq_below]. simpl. intros q Hq. lia. }
  eapply runs_bind; [apply runs_x; lia|].
  unfold Py.reversed.
  rewrite <- (flat_map_mirror (fun q => repeat (Cu1 (IntAngle 1) q n) (2 ^ q)) n).
  apply runs_for_each. intros x_ Hx. apply in_rev, in_seq in Hx.
  apply runs_repeated; lia.
Qed.

Lemma h_each_refused_empty c : h_each [] c = (c, Raise CircuitError).
Proof. reflexivity. Qed.

Lemma h_each_refused qs q c :
  In q qs -> num_qubits c <= q -> h_each qs c = (c, Raise CircuitError).
Proof.
  intros Hin Hq. unfold h_each, append_if.
  destruct (qubits_ok qs c) eqn:E; [|now rewrite andb_false_r].
  apply qubits_ok_spec in E. rewrite Forall_forall in E.
  specialize (E q Hin). lia.
Qed.

(** Without estimation qubits, or on a circuit of fewer than n+1
    qubits, the builder raises [CircuitError]. *)
Lemma qpe_pre_refused n c :
  n = 0 \/ num_qubits c <= n -> snd (qpe_pre n c) = Raise CircuitError.
Proof.
  intros Hcase. unfold qpe_pre.
  destruct (Nat.eq_dec n 0) as [->|Hn0].
  - unfold bind at 1. now rewrite h_each_refused_empty.
  - destruct Hcase as [->|Hc]; [congruence|].
    destruct (Nat.eq_dec (num_qubits c) n) as [Heq|Hneq].
    + assert (Hh : runs n (h_each (Py.range n)) (map H (Py.range n)) (Ok tt)).
      { apply runs_h_each; [unfold Py.range; destruct n; [lia|discriminate]|].
        apply seq_below. }
      erewrite bind_ok by (apply Hh; lia).
      unfold bind at 1. rewrite x_refused by (simpl; lia). reflexivity.
    + unfold bind at 1.
      rewrite (h_each_refused (Py.range n) (n - 1) c); [reflexivity| |lia].
      unfold Py.range. apply in_seq. lia.
Qed.

(** ** Counting instructions *)

Lemma count_app f ops1 ops2 : count f (ops1 ++ ops2) = count f ops1 + count f ops2.
Proof. unfold count. now rewrite filter_app, length_app. Qed.

Lemma count_map_none {A} f (g : A -> instr) xs :
  (forall a, f (g a) = false) -> count f (map g xs) = 0.
Proof.
  intros Hf. unfold count. induction xs as [|a xs IH]; simpl; [reflexivity|].
  now rewrite Hf.
Qed.

Lemma count_map_all {A} f (g : A -> instr) xs :
  (forall a, f (g a) = true) -> count f (map g xs) = List.length xs.
Proof.
  intros Hf. unfold count. induction xs as [|a xs IH]; simpl; [reflexivity|].
  rewrite Hf. simpl. now rewrite IH.
Qed.

Lemma count_repeat f i k :
  count f (repeat i k) = if f i then k else 0.
Proof.
  unfold count. induction k as [|k IH]; simpl.
  - now destruct (f i).
  - destruct (f i) eqn:E; simpl; now rewrite IH.
Qed.

Lemma count_singleton f i : count f [i] = if f i then 1 else 0.
Proof. unfold count. simpl. now destruct (f i). Qed.

Lemma count_swap_reversal n : count is_swap (reversal n) = n / 2.
Proof.
  unfold reversal. rewrite count_map_all by reflexivity. apply length_seq.
Qed.

Lemma count_round j :
  count is_swap (rotations_then_h j) = 0 /\
  count is_cu1 (rotations_then_h j) = j /\
  count is_h (rotations_then_h j) = 1.
Proof.
  unfold rotations_then_h. rewrite !count_app.
  rewrite (count_map_none is_swap), (count_map_none is_h) by reflexivity.
  rewrite (count_map_all is_cu1) by reflexivity.
  rewrite length_seq. unfold count. simpl. lia.
Qed.

Lemma count_rounds n :
  count is_swap (flat_map rotations_then_h (seq 0 n)) = 0 /\
  2 * count is_cu1 (flat_map rotations_then_h (seq 0 n)) = n * (n - 1) /\
  count is_h (flat_map rotations_then_h (seq 0 n)) = n.
Proof.
  induction n as [|n (IHs & IHc & IHh)]; [repeat split|].
  rewrite seq_S, flat_map_app, !count_app.
  change (flat_map rotations_then_h [0 + n]) with (rotations_then_h n ++ []).
  rewrite app_nil_r.
  destruct (count_round n) as (Hs & Hc & Hh).
  rewrite Hs, Hc, Hh, IHs, IHh. repeat split; try lia.
  rewrite Nat.mul_add_distr_l, IHc. simpl. nia.
Qed.

(** The counts of a reversal over m qubits followed by n rounds. *)
Lemma count_reversal_rounds m n :
  count is_cu1 (reversal m ++ flat_map rotations_then_h (seq 0 n))
    = n * (n - 1) / 2 /\
  count is_h (reversal m ++ flat_map rotations_then_h (seq 0 n)) = n /\
  count is_swap (reversal m ++ flat_map rotations_then_h (seq 0 n)) = m / 2.
Proof.
  rewrite !count_app.
  destruct (count_rounds n) as (Hs & Hc & Hh).
  rewrite Hs, Hh, count_swap_reversal. unfold reversal.
  rewrite (count_map_none is_cu1), (count_map_none is_h) by reflexivity.
  repeat split; try lia.
  rewrite Nat.add_0_l.
  apply Nat.div_unique_exact; [discriminate|]. now rewrite Hc.
Qed.

Lemma count_qft_dagger_spec n :
  count is_cu1 (qft_dagger_spec n) = n * (n - 1) / 2 /\
  count is_h (qft_dagger_spec n) = n /\
  count is_swap (qft_dagger_spec n) = n / 2.
Proof. apply count_reversal_rounds. Qed.

Lemma count_unit_rotations n k :
  count is_cu1
    (flat_map (fun q => repeat (Cu1 (IntAngle 1) q n) (2 ^ q)) (seq 0 k)) + 1 = 2 ^ k.
Proof.
  induction k as [|k IH]; [reflexivity|].
  rewrite seq_S, flat_map_app, count_app. simpl flat_map.
  rewrite app_nil_r, count_repeat. simpl is_cu1. cbv iota.
  rewrite Nat.pow_succ_r'. lia.
Qed.

Lemma count_unit_rotations_on n q k :
  count (is_unit_cu1 q n)
    (flat_map (fun q' => repeat (Cu1 (IntAngle 1) q' n) (2 ^ q')) (seq 0 k))
  = if q <? k then 2 ^ q else 0.
Proof.
  induction k as [|k IH]; [reflexivity|].
  rewrite seq_S, flat_map_app, count_app. simpl flat_map.
  rewrite app_nil_r, count_repeat, IH. simpl is_unit_cu1.
  rewrite Nat.eqb_refl, andb_true_r.
  destruct (Nat.ltb_spec q k), (Nat.eqb_spec k q), (Nat.ltb_spec q (S k));
    subst; try lia.
Qed.

(** ** What the builders emit on any circuit *)

Lemma Forall_flat_map_seq (P : instr -> Prop) (f : nat -> list instr) a len :
  (forall j, a <= j < a + len -> Forall P (f j)) ->
  Forall P (flat_map f (seq a len)).
Proof.
  intros Hf. apply Forall_forall. intros i Hi.
  apply in_flat_map in Hi. destruct Hi as (j & Hj & Hi).
  apply in_seq in Hj. specialize (Hf j Hj).
  rewrite Forall_forall in Hf. now apply Hf.
Qed.

Lemma Forall_map_seq (P : instr -> Prop) (f : nat -> instr) a len :
  (forall j, a <= j < a + len -> P (f j)) ->
  Forall P (map f (seq a len)).
Proof.
  intros Hf. apply Forall_forall. intros i Hi.
  apply in_map_iff in Hi. destruct Hi as (j & <- & Hj).
  apply in_seq in Hj. now apply Hf.
Qed.

(** Every gate [qft_dagger] gets to append, on any circuit, is one of
    its specified gates. *)
Lemma qft_dagger_emits_only (P : instr -> Prop) n :
  n <= 1024 ->
  (forall q, q < n / 2 -> P (Swap q (n - 1 - q))) ->
  (forall m j, m < j -> j < n -> P (Cu1 (neg_pi_over_pow2 (j - m)) m j)) ->
  (forall j, j < n -> P (H j)) ->
  emits_only P (qft_dagger n).
Proof.
  intros Hn Hswap Hcu1 Hh. unfold qft_dagger.
  destruct (truediv_half n) as (half & E & Hhalf); [lia|].
  rewrite E. apply emits_only_bind_lift. intros half' [= <-]. rewrite Hhalf.
  apply emits_only_bind.
  - apply emits_only_for_each. intros q Hq. apply in_seq in Hq.
    apply emits_only_append_if. constructor; [|constructor].
    replace (n - q - 1) with (n - 1 - q) by lia. apply Hswap. lia.
  - intros _. apply emits_only_for_each. intros j Hj.
    unfold Py.range2 in Hj. apply in_seq in Hj.
    apply emits_only_bind.
    + apply emits_only_for_each. intros m Hm. apply in_seq in Hm.
      apply emits_only_bind_lift. intros d Hd.
      apply float_pow2_value in Hd. subst d. rewrite neg_pi_div_pow2.
      apply emits_only_bind_lift. intros theta [= <-].
      apply emits_only_append_if. constructor; [|constructor].
      apply Hcu1; lia.
    + intros _. apply emits_only_append_if. constructor; [|constructor].
      apply Hh. lia.
Qed.

Lemma emits_only_weaken {A} (P : instr -> Prop) (p : prog circuit A) :
  emits_only P p -> emits_only (fun _ => True) p.
Proof.
  intros Hp c. destruct (Hp c) as (ops & r & E & _).
  exists ops, r. split; [exact E|]. apply Forall_forall. trivial.
Qed.

(** Whatever n, the builders only append. *)
Lemma qft_dagger_appends n : emits_only (fun _ => True) (qft_dagger n).
Proof.
  unfold qft_dagger. apply emits_only_bind_lift. intros half _.
  apply emits_only_bind.
  - apply emits_only_for_each. intros q _.
    apply emits_only_append_if. repeat constructor.
  - intros _. apply emits_only_for_each. intros j _.
    apply emits_only_bind.
    + apply emits_only_for_each. intros m _.
      apply emits_only_bind_lift. intros d _.
      apply emits_only_bind_lift. intros theta _.
      apply emits_only_append_if. repeat constructor.
    + intros _. apply emits_only_append_if. repeat constructor.
Qed.

Lemma qpe_pre_appends n : emits_only (fun _ => True) (qpe_pre n).
Proof.
  unfold qpe_pre. apply emits_only_bind.
  - apply emits_only_append_if. apply Forall_forall. trivial.
  - intros _. apply emits_only_bind.
    + apply emits_only_append_if. repeat constructor.
    + intros _. apply emits_only_for_each. intros x_ _.
      apply emits_only_for_each. intros _ _.
      apply emits_only_append_if. repeat constructor.
Qed.

Lemma count_rotation_row m j j' len :
  count (is_rotation_on m j)
        (map (fun m' => Cu1 (neg_pi_over_pow2 (j' - m')) m' j') (seq 0 len))
  = if (m <? len) && (j' =? j) then 1 else 0.
Proof.
  induction len as [|len IH]; [reflexivity|].
  rewrite seq_S, map_app, count_app, IH. simpl map.
  rewrite count_singleton. simpl is_rotation_on.
  destruct (Nat.ltb_spec m len), (Nat.eqb_spec len m), (Nat.eqb_spec j' j),
    (Nat.ltb_spec m (S len)); simpl; lia.
Qed.

Lemma count_rotation_rounds m j k :
  count (is_rotation_on m j) (flat_map rotations_then_h (seq 0 k))
  = if (m <? j) && (j <? k) then 1 else 0.
Proof.
  induction k as [|k IH].
  - simpl. now rewrite andb_false_r.
  - rewrite seq_S, flat_map_app, count_app, IH.
    change (flat_map rotations_then_h [0 + k]) with (rotations_then_h k ++ []).
    rewrite app_nil_r. unfold rotations_then_h.
    rewrite count_app, count_rotation_row, count_singleton. simpl is_rotation_on.
    destruct (Nat.ltb_spec m j), (Nat.ltb_spec j k), (Nat.ltb_spec m k),
      (Nat.eqb_spec k j), (Nat.ltb_spec j (S k)); simpl; lia.
Qed.

Lemma position_after_app ops1 ops2 p :
  position_after (ops1 ++ ops2) p = position_after ops2 (position_after ops1 p).
Proof. unfold position_after. apply fold_left_app. Qed.

Lemma position_after_no_swap ops p :
  Forall (fun i => is_swap i = false) ops -> position_after ops p = p.
Proof.
  induction 1 as [|i ops Hi _ IH]; [reflexivity|].
  unfold position_after in *. simpl. destruct i; try discriminate; exact IH.
Qed.

(** After the first [k] swaps of the reversal, the [k] lowest and the
    [k] highest of the [n] positions have been exchanged. *)
Lemma position_after_swaps n k p :
  2 * k <= n ->
  position_after (map (fun q => Swap q (n - 1 - q)) (seq 0 k)) p
  = if (p <? k) || ((n - k <=? p) && (p <? n)) then n - 1 - p else p.
Proof.
  induction k as [|k IH]; intros Hk.
  - simpl. destruct (Nat.leb_spec (n - 0) p), (Nat.ltb_spec p n); simpl; lia.
  - rewrite seq_S, map_app, position_after_app, IH by lia.
    simpl map. unfold position_after. simpl fold_left. unfold transpose.
    destruct (Nat.ltb_spec p k), (Nat.leb_spec (n - k) p), (Nat.ltb_spec p n),
      (Nat.ltb_spec p (S k)), (Nat.leb_spec (n - S k) p); simpl;
      repeat match goal with
             | |- context [?a =? ?b] => destruct (Nat.eqb_spec a b)
             end; lia.
Qed.

Lemma rounds_have_no_swap k :
  Forall (fun i => is_swap i = false) (flat_map rotations_then_h (seq 0 k)).
Proof.
  apply Forall_flat_map_seq. intros j _. unfold rotations_then_h.
  apply Forall_app. split; [|repeat constructor].
  apply Forall_map_seq. reflexivity.
Qed.

Lemma count_all f ops :
  Forall (fun i => f i = true) ops -> count f ops = List.length ops.
Proof.
  unfold count. induction 1 as [|i ops Hi _ IH]; [reflexivity|].
  simpl. rewrite Hi. simpl. now rewrite IH.
Qed.

(** ** The claims about the builders *)

(** C1.  Asked for 1025 qubits on a circuit of 1025 qubits,
    [qft_dagger] stops with [OverflowError] at the rotation for target
    1024 and control 0, whose angle needs [float(2**1024)]: by then it
    has emitted the 512 swaps but only 1024 of the 1025 Hadamard gates
    and 1024*1023/2 of the 1025*1024/2 controlled rotations. *)
Theorem qft_dagger_counts_at_1025 :
  snd (qft_dagger 1025 (QuantumCircuit 1025 0)) = Raise OverflowError /\
  count is_h (emitted (QuantumCircuit 1025 0) (fst (qft_dagger 1025 (QuantumCircuit 1025 0))))
    = 1024 /\
  count is_cu1 (emitted (QuantumCircuit 1025 0) (fst (qft_dagger 1025 (QuantumCircuit 1025 0))))
    = 1024 * (1024 - 1) / 2 /\
  count is_swap (emitted (QuantumCircuit 1025 0) (fst (qft_dagger 1025 (QuantumCircuit 1025 0))))
    = 1025 / 2 /\
  count is_h (emitted (QuantumCircuit 1025 0) (fst (qft_dagger 1025 (QuantumCircuit 1025 0))))
    <> 1025.
Proof.
  destruct (runs_emitted 1025 (qft_dagger 1025) _ _ (QuantumCircuit 1025 0)
              (Nat.le_refl _) qft_dagger_1025) as [-> ->].
  destruct (count_reversal_rounds 1025 1024) as (Hc & Hh & Hs).
  rewrite Hc, Hh, Hs. repeat split. apply Nat.lt_neq, Nat.lt_succ_diag_r.
Qed.

(** C2.  Asked for 1025 qubits on a circuit of 1025 qubits,
    [qft_dagger] appends the reversal and the rounds for the targets 0
    to 1023 and then raises [OverflowError]: the round for target
    1024, its 1024 rotations and its Hadamard gate, is missing from
    the specified sequence. *)
Theorem qft_dagger_order_at_1025 :
  qft_dagger 1025 (QuantumCircuit 1025 0) =
    (add_ops (QuantumCircuit 1025 0)
       (reversal 1025 ++ flat_map rotations_then_h (seq 0 1024)),
     Raise OverflowError) /\
  qft_dagger_spec 1025 =
    (reversal 1025 ++ flat_map rotations_then_h (seq 0 1024)) ++ rotations_then_h 1024 /\
  emitted (QuantumCircuit 1025 0) (fst (qft_dagger 1025 (QuantumCircuit 1025 0)))
    <> qft_dagger_spec 1025.
Proof.
  assert (Hspec : qft_dagger_spec 1025 =
    (reversal 1025 ++ flat_map rotations_then_h (seq 0 1024)) ++ rotations_then_h 1024).
  { unfold qft_dagger_spec. rewrite (seq_S 1024 0), flat_map_app.
    rewrite <- app_assoc. do 2 f_equal; try apply app_nil_r. }
  split; [apply qft_dagger_1025, Nat.le_refl|]. split; [exact Hspec|].
  destruct (runs_emitted 1025 (qft_dagger 1025) _ _ (QuantumCircuit 1025 0)
              (Nat.le_refl _) qft_dagger_1025) as [-> _].
  rewrite Hspec. intros E.
  rewrite <- (app_nil_r (reversal 1025 ++ flat_map rotations_then_h (seq 0 1024))) in E at 1.
  apply app_inv_head in E. unfold rotations_then_h in E.
  destruct (map _ (seq 0 1024)); discriminate.
Qed.

(** C3 (as amended).  For every qubit count n >= 1, on a circuit of at
    least n+1 qubits, [qpe_pre] appends Hadamard gates on qubits
    0..n-1, an X gate on qubit n, and then for each estimation qubit
    q = n-1-x exactly 2^q controlled rotations by 1 between q and
    qubit n: 2^n - 1 controlled rotations in all. *)
Theorem qpe_pre_emits (n : nat) (c : circuit) :
  1 <= n -> n + 1 <= num_qubits c ->
  qpe_pre n c =
    (add_ops c
       (map H (seq 0 n) ++ [X n] ++
        flat_map (fun q => repeat (Cu1 (IntAngle 1) q n) (2 ^ q)) (seq 0 n)),
     Ok tt) /\
  (forall q, q < n ->
     count (is_unit_cu1 q n) (emitted c (fst (qpe_pre n c))) = 2 ^ q) /\
  count is_cu1 (emitted c (fst (qpe_pre n c))) = 2 ^ n - 1.
Proof.
  intros Hn Hc. pose proof (qpe_pre_runs (n + 1) n Hn (Nat.le_refl _)) as Hr.
  split; [apply Hr, Hc|].
  destruct (runs_emitted _ _ _ _ c Hc Hr) as [-> _].
  unfold qpe_pre_spec. split.
  - intros q Hq. rewrite !count_app.
    rewrite (count_map_none (is_unit_cu1 q n)) by reflexivity.
    rewrite count_unit_rotations_on.
    destruct (Nat.ltb_spec q n); [|lia]. reflexivity.
  - rewrite !count_app.
    rewrite (count_map_none is_cu1) by reflexivity.
    pose proof (count_unit_rotations n n). unfold count at 1. simpl. lia.
Qed.

Lemma qpe_pre_emits_witness :
  1 <= 3 /\ 3 + 1 <= num_qubits (QuantumCircuit 4 3) /\
  qpe_pre 3 (QuantumCircuit 4 3) =
    (add_ops (QuantumCircuit 4 3)
       (map H (seq 0 3) ++ [X 3] ++
        flat_map (fun q => repeat (Cu1 (IntAngle 1) q 3) (2 ^ q)) (seq 0 3)),
     Ok tt) /\
  (forall q, q < 3 ->
     count (is_unit_cu1 q 3)
       (emitted (QuantumCircuit 4 3) (fst (qpe_pre 3 (QuantumCircuit 4 3)))) = 2 ^ q) /\
  count is_cu1 (emitted (QuantumCircuit 4 3) (fst (qpe_pre 3 (QuantumCircuit 4 3))))
    = 2 ^ 3 - 1.
Proof.
  split; [lia|]. split; [simpl; lia|].
  apply (qpe_pre_emits 3 (QuantumCircuit 4 3)); simpl; lia.
Defined.

(** C3 as stated fails at n = 0: [circ_.h(range(0))] is refused, so
    [qpe_pre] raises [CircuitError] and appends nothing, not even the
    X gate on the auxiliary qubit. *)
Lemma qpe_pre_refuses_no_qubits :
  qpe_pre 0 (QuantumCircuit 1 0) = (QuantumCircuit 1 0, Raise CircuitError) /\
  emitted (QuantumCircuit 1 0) (fst (qpe_pre 0 (QuantumCircuit 1 0))) <> qpe_pre_spec 0.
Proof. split; [reflexivity|discriminate]. Qed.

(** C10 (as amended).  On every circuit and for every n, whether they
    return or raise, both builders leave the register sizes alone and
    keep every earlier instruction in place, adding only at the end.
    [qpe_pre] returns nothing when n >= 1 and the circuit has at least
    n+1 qubits, and raises [CircuitError] otherwise; for n up to 1024,
    [qft_dagger] returns nothing when the circuit has at least n
    qubits, and raises [CircuitError] otherwise. *)
Theorem builders_only_append (c : circuit) (n : nat) :
  extends c (fst (qpe_pre n c)) /\
  extends c (fst (qft_dagger n c)) /\
  snd (qpe_pre n c) =
    (if (1 <=? n) && (n + 1 <=? num_qubits c) then Ok tt else Raise CircuitError) /\
  (n <= 1024 ->
   snd (qft_dagger n c) = (if n <=? num_qubits c then Ok tt else Raise CircuitError)).
Proof.
  split; [apply (emits_only_emitted _ _ c (qpe_pre_appends n))|].
  split; [apply (emits_only_emitted _ _ c (qft_dagger_appends n))|].
  split.
  - destruct (Nat.leb_spec 1 n) as [Hn|Hn]; simpl.
    + destruct (Nat.leb_spec (n + 1) (num_qubits c)) as [Hc|Hc].
      * apply (runs_emitted _ _ _ _ c Hc (qpe_pre_runs (n + 1) n Hn (Nat.le_refl _))).
      * apply qpe_pre_refused. right. lia.
    + apply qpe_pre_refused. left. lia.
  - intros Hn. destruct (Nat.leb_spec n (num_qubits c)) as [Hc|Hc].
    + apply (runs_emitted _ _ _ _ c Hc (qft_dagger_runs n n Hn (Nat.le_refl _))).
    + now rewrite (qft_dagger_narrow n c Hn Hc).
Qed.

Lemma builders_only_append_witness :
  3 <= 1024 /\
  extends (QuantumCircuit 4 3) (fst (qpe_pre 3 (QuantumCircuit 4 3))) /\
  extends (QuantumCircuit 4 3) (fst (qft_dagger 3 (QuantumCircuit 4 3))) /\
  snd (qpe_pre 3 (QuantumCircuit 4 3)) = Ok tt /\
  snd (qft_dagger 3 (QuantumCircuit 4 3)) = Ok tt.
Proof.
  split; [lia|].
  destruct (builders_only_append (QuantumCircuit 4 3) 3) as (H1 & H2 & H3 & H4).
  split; [exact H1|]. split; [exact H2|]. split; [exact H3|].
  apply H4. lia.
Defined.

(** C10 as stated fails on a circuit narrower than the builder
    addresses, and for [qpe_pre] without estimation qubits: the call
    raises [CircuitError] instead of returning. *)
Lemma builders_raise_circuit_error :
  snd (qft_dagger 2 (QuantumCircuit 1 0)) = Raise CircuitError /\
  snd (qpe_pre 2 (QuantumCircuit 2 0)) = Raise CircuitError /\
  snd (qpe_pre 0 (QuantumCircuit 1 0)) = Raise CircuitError.
Proof. repeat split; reflexivity. Qed.

(** * Further properties of the builders *)

(** X1.  Up to 1024 qubits, every instruction [qft_dagger] emits acts
    on the first n qubits only, whatever the size of the circuit; every
    swap pairs a qubit with a strictly higher one, and every rotation
    has its control strictly below its target, with the angle
    -pi/2^(target - control). *)
Theorem qft_dagger_stays_within (n : nat) (c : circuit) :
  n <= 1024 ->
  Forall (fun i =>
            acts_within n i /\ rotation_ok i /\
            match i with Swap a b => a < b | _ => True end)
         (emitted c (fst (qft_dagger n c))).
Proof.
  intros Hn. apply emits_only_emitted. apply qft_dagger_emits_only; [exact Hn| | |].
  - intros q Hq. destruct (half_bound n q Hq) as [Hlt Hlt'].
    unfold acts_within. simpl. repeat split; try assumption.
    repeat constructor; lia.
  - intros m j Hm Hj. unfold acts_within. simpl. repeat split; try lia.
    repeat constructor; lia.
  - intros j Hj. repeat constructor. exact Hj.
Qed.

Lemma qft_dagger_stays_within_witness :
  3 <= 1024 /\
  Forall (fun i =>
            acts_within 3 i /\ rotation_ok i /\
            match i with Swap a b => a < b | _ => True end)
         (emitted (QuantumCircuit 7 0) (fst (qft_dagger 3 (QuantumCircuit 7 0)))).
Proof.
  split; [lia|]. apply (qft_dagger_stays_within 3 (QuantumCircuit 7 0)). lia.
Defined.

(** X2.  Up to 1024 qubits and on a circuit of at least n qubits,
    [qft_dagger] emits exactly one controlled rotation for every pair
    of qubits m < j < n, with control m and target j, and none for any
    other pair. *)
Theorem qft_dagger_one_rotation_per_pair (n : nat) (c : circuit) (m j : nat) :
  n <= 1024 -> n <= num_qubits c ->
  count (is_rotation_on m j) (emitted c (fst (qft_dagger n c)))
  = if (m <? j) && (j <? n) then 1 else 0.
Proof.
  intros Hn Hc.
  destruct (runs_emitted _ _ _ _ c Hc (qft_dagger_runs n n Hn (Nat.le_refl _))) as [-> _].
  unfold qft_dagger_spec, reversal. rewrite count_app.
  rewrite (count_map_none (is_rotation_on m j)) by reflexivity.
  apply count_rotation_rounds.
Qed.

Lemma qft_dagger_one_rotation_per_pair_witness :
  4 <= 1024 /\ 4 <= num_qubits (QuantumCircuit 5 4) /\
  count (is_rotation_on 1 3) (emitted (QuantumCircuit 5 4) (fst (qft_dagger 4 (QuantumCircuit 5 4))))
  = if (1 <? 3) && (3 <? 4) then 1 else 0.
Proof.
  split; [lia|]. split; [simpl; lia|].
  apply (qft_dagger_one_rotation_per_pair 4 (QuantumCircuit 5 4) 1 3); simpl; lia.
Defined.

(** X3.  Up to 1024 qubits and on a circuit of at least n qubits, the
    swaps [qft_dagger] emits reverse the order of the first n qubits:
    the content of qubit p ends at qubit n-1-p for p < n, and stays
    where it is for p >= n. *)
Theorem qft_dagger_reverses_order (n : nat) (c : circuit) (p : nat) :
  n <= 1024 -> n <= num_qubits c ->
  position_after (emitted c (fst (qft_dagger n c))) p
  = if p <? n then n - 1 - p else p.
Proof.
  intros Hn Hc.
  destruct (runs_emitted _ _ _ _ c Hc (qft_dagger_runs n n Hn (Nat.le_refl _))) as [-> _].
  unfold qft_dagger_spec, reversal.
  rewrite position_after_app.
  rewrite (position_after_no_swap _ _ (rounds_have_no_swap n)).
  pose proof (Nat.Div0.mul_div_le n 2) as Hle.
  pose proof (Nat.div_mod_eq n 2) as Hdm.
  pose proof (Nat.mod_upper_bound n 2) as Hmod.
  rewrite position_after_swaps by lia.
  destruct (Nat.ltb_spec p (n / 2)), (Nat.leb_spec (n - n / 2) p),
    (Nat.ltb_spec p n); simpl; lia.
Qed.

Lemma qft_dagger_reverses_order_witness :
  5 <= 1024 /\ 5 <= num_qubits (QuantumCircuit 6 5) /\
  position_after (emitted (QuantumCircuit 6 5) (fst (qft_dagger 5 (QuantumCircuit 6 5)))) 1
  = if 1 <? 5 then 5 - 1 - 1 else 1.
Proof.
  split; [lia|]. split; [simpl; lia|].
  apply (qft_dagger_reverses_order 5 (QuantumCircuit 6 5) 1); simpl; lia.
Defined.

(** X4.  For every qubit count n >= 1, on a circuit of at least n+1
    qubits, [qpe_pre] emits n + 2^n instructions, all within the first
    n+1 qubits, and every controlled rotation it emits has the int
    angle 1, a control among the first n qubits and the auxiliary
    qubit n as target. *)
Theorem qpe_pre_shape (n : nat) (c : circuit) :
  1 <= n -> n + 1 <= num_qubits c ->
  List.length (emitted c (fst (qpe_pre n c))) = n + 2 ^ n /\
  Forall (fun i =>
            acts_within (n + 1) i /\
            match i with
            | Cu1 theta control target =>
                theta = IntAngle 1 /\ control < n /\ target = n
            | _ => True
            end)
         (emitted c (fst (qpe_pre n c))).
Proof.
  intros Hn Hc.
  destruct (runs_emitted _ _ _ _ c Hc (qpe_pre_runs (n + 1) n Hn (Nat.le_refl _))) as [-> _].
  unfold qpe_pre_spec. split.
  - rewrite !length_app, length_map, length_seq. simpl List.length.
    pose proof (count_unit_rotations n n) as Hcount.
    rewrite <- (count_all is_cu1); [lia|].
    apply Forall_flat_map_seq. intros q _.
    apply Forall_forall. intros i Hi. apply repeat_spec in Hi. now subst i.
  - apply Forall_app. split.
    + apply Forall_map_seq. intros q [_ Hq]. simpl in Hq.
      split; [|exact I]. repeat constructor. lia.
    + apply Forall_app. split.
      * repeat constructor. lia.
      * apply Forall_flat_map_seq. intros q [_ Hq]. simpl in Hq.
        apply Forall_forall. intros i Hi. apply repeat_spec in Hi. subst i.
        split; [repeat constructor; lia|]. repeat split. exact Hq.
Qed.

Lemma qpe_pre_shape_witness :
  1 <= 3 /\ 3 + 1 <= num_qubits (QuantumCircuit 4 3) /\
  List.length (emitted (QuantumCircuit 4 3) (fst (qpe_pre 3 (QuantumCircuit 4 3)))) = 3 + 2 ^ 3 /\
  Forall (fun i =>
            acts_within (3 + 1) i /\
            match i with
            | Cu1 theta control target =>
                theta = IntAngle 1 /\ control < 3 /\ target = 3
            | _ => True
            end)
         (emitted (QuantumCircuit 4 3) (fst (qpe_pre 3 (QuantumCircuit 4 3)))).
Proof.
  split; [lia|]. split; [simpl; lia|].
  apply (qpe_pre_shape 3 (QuantumCircuit 4 3)); simpl; lia.
Defined.

(** X14.  Up to 1024 qubits and on a circuit of at least n qubits,
    [qft_dagger] completes and emits exactly n*(n-1)/2 controlled
    rotations, n Hadamard gates and floor(n/2) swaps. *)
Theorem qft_dagger_gate_counts (n : nat) (c : circuit) :
  n <= 1024 -> n <= num_qubits c ->
  snd (qft_dagger n c) = Ok tt /\
  count is_cu1 (emitted c (fst (qft_dagger n c))) = n * (n - 1) / 2 /\
  count is_h (emitted c (fst (qft_dagger n c))) = n /\
  count is_swap (emitted c (fst (qft_dagger n c))) = n / 2.
Proof.
  intros Hn Hc.
  destruct (runs_emitted _ _ _ _ c Hc (qft_dagger_runs n n Hn (Nat.le_refl _))) as [-> ->].
  split; [reflexivity|]. apply count_qft_dagger_spec.
Qed.

Lemma qft_dagger_gate_counts_witness :
  4 <= 1024 /\ 4 <= num_qubits (QuantumCircuit 5 4) /\
  snd (qft_dagger 4 (QuantumCircuit 5 4)) = Ok tt /\
  count is_cu1 (emitted (QuantumCircuit 5 4) (fst (qft_dagger 4 (QuantumCircuit 5 4)))) = 4 * (4 - 1) / 2 /\
  count is_h (emitted (QuantumCircuit 5 4) (fst (qft_dagger 4 (QuantumCircuit 5 4)))) = 4 /\
  count is_swap (emitted (QuantumCircuit 5 4) (fst (qft_dagger 4 (QuantumCircuit 5 4)))) = 4 / 2.
Proof.
  split; [lia|]. split; [simpl; lia|].
  apply (qft_dagger_gate_counts 4 (QuantumCircuit 5 4)); simpl; lia.
Defined.

(** X15.  Up to 1024 qubits and on a circuit of at least n qubits,
    [qft_dagger] appends, in this order: the swaps of qubit q with
    qubit n-1-q for q < floor(n/2); then for each j from 0 to n-1 in
    increasing order the rotations by -pi/2^(j-m) controlled on each
    m < j, followed by the Hadamard gate on j; and it returns
    nothing. *)
Theorem qft_dagger_order (n : nat) (c : circuit) :
  n <= 1024 -> n <= num_qubits c ->
  qft_dagger n c =
    (add_ops c
       (map (fun q => Swap q (n - 1 - q)) (seq 0 (n / 2)) ++
        flat_map (fun j =>
            map (fun m => Cu1 (NegPiOver (inject_Z (2 ^ Z.of_nat (j - m)))) m j) (seq 0 j)
            ++ [H j])
          (seq 0 n)),
     Ok tt).
Proof. intros Hn Hc. apply (qft_dagger_runs n n Hn (Nat.le_refl _) c Hc). Qed.

Lemma qft_dagger_order_witness :
  3 <= 1024 /\ 3 <= num_qubits (QuantumCircuit 4 3) /\
  qft_dagger 3 (QuantumCircuit 4 3) =
    (add_ops (QuantumCircuit 4 3)
       (map (fun q => Swap q (3 - 1 - q)) (seq 0 (3 / 2)) ++
        flat_map (fun j =>
            map (fun m => Cu1 (NegPiOver (inject_Z (2 ^ Z.of_nat (j - m)))) m j) (seq 0 j)
            ++ [H j])
          (seq 0 3)),
     Ok tt).
Proof.
  split; [lia|]. split; [simpl; lia|].
  apply (qft_dagger_order 3 (QuantumCircuit 4 3)); simpl; lia.
Defined.

(** X16.  On a circuit of fewer than n qubits, [qft_dagger] raises
    [CircuitError] at its first gate and leaves the circuit as it was
    (n from 1 to 1024). *)
Theorem qft_dagger_refused_on_narrow_circuit (n : nat) (c : circuit) :
  n <= 1024 -> num_qubits c < n ->
  qft_dagger n c = (c, Raise CircuitError).
Proof. apply qft_dagger_narrow. Qed.

Lemma qft_dagger_refused_on_narrow_circuit_witness :
  3 <= 1024 /\ num_qubits (QuantumCircuit 2 0) < 3 /\
  qft_dagger 3 (QuantumCircuit 2 0) = (QuantumCircuit 2 0, Raise CircuitError).
Proof.
  split; [lia|]. split; [simpl; lia|].
  apply (qft_dagger_refused_on_narrow_circuit 3 (QuantumCircuit 2 0)); simpl; lia.
Defined.

(** * The estimation driver *)

Lemma barrier_run c :
  barrier c = (add_ops c [Barrier (Py.range (num_qubits c))], Ok tt).
Proof. reflexivity. Qed.

Lemma combine_diag {A} (l : list A) : combine l l = map (fun a => (a, a)) l.
Proof. induction l as [|a l IH]; simpl; [reflexivity|now rewrite IH]. Qed.

Lemma clbits_ok_spec cs c :
  clbits_ok cs c = true <-> Forall (fun b => b < num_clbits c) cs.
Proof.
  unfold clbits_ok. rewrite forallb_forall, Forall_forall.
  split; intros Hall b Hb; specialize (Hall b Hb); now apply Nat.ltb_lt.
Qed.

(** Measuring each listed qubit into the bit of the same index. *)
Lemma measure_run qs c :
  Forall (fun q => q < num_qubits c) qs ->
  Forall (fun b => b < num_clbits c) qs ->
  measure qs qs c = (add_ops c (map (fun i => Measure i i) qs), Ok tt).
Proof.
  intros Hq Hb. unfold measure.
  apply qubits_ok_spec in Hq. apply clbits_ok_spec in Hb.
  rewrite Hq, Hb, Nat.eqb_refl. cbn [andb].
  now rewrite combine_diag, map_map.
Qed.

(** From 1 to 1024 qubits the construction completes, with this
    circuit. *)
Lemma estimation_circuit_built n :
  1 <= n <= 1024 ->
  estimation_circuit n (QuantumCircuit (n + 1) n) =
  (mkCircuit (n + 1) n
     (qpe_pre_spec n ++ [Barrier (seq 0 (n + 1))] ++
      qft_dagger_spec n ++ [Barrier (seq 0 (n + 1))] ++
      map (fun i => Measure i i) (seq 0 n)),
   Ok tt).
Proof.
  intros [Hn1 Hn]. unfold estimation_circuit.
  erewrite bind_ok
    by (apply (qpe_pre_runs (n + 1) n Hn1 (Nat.le_refl _)); apply Nat.le_refl).
  erewrite bind_ok by apply barrier_run.
  erewrite bind_ok
    by (apply (qft_dagger_runs n n Hn (Nat.le_refl _)); cbn; lia).
  erewrite bind_ok by apply barrier_run.
  unfold Py.range. rewrite measure_run.
  - unfold add_ops, QuantumCircuit. cbn [num_qubits num_clbits data fst snd app].
    rewrite <- !app_assoc. reflexivity.
  - apply Forall_forall. intros q Hq. apply in_seq in Hq. cbn. lia.
  - apply Forall_forall. intros q Hq. apply in_seq in Hq. cbn. lia.
Qed.

Lemma estimation_circuit_ok n :
  1 <= n <= 1024 ->
  estimation_circuit n (QuantumCircuit (n + 1) n) = (built_circuit n, Ok tt).
Proof.
  intros Hn. unfold built_circuit. now rewrite (estimation_circuit_built n Hn).
Qed.

(** Without estimation qubits nothing is built: [qpe_pre] raises at
    its first gate. *)
Lemma estimation_circuit_refused :
  estimation_circuit 0 (QuantumCircuit (0 + 1) 0) = (QuantumCircuit 1 0, Raise CircuitError).
Proof. reflexivity. Qed.

Lemma estimation_circuit_never_ok n c :
  1024 < n -> snd (estimation_circuit n c) <> Ok tt.
Proof.
  intros Hn. unfold estimation_circuit.
  apply bind_never_ok. intros _.
  apply bind_never_ok. intros _.
  apply bind_never_ok_left. intros c' []. now apply qft_dagger_never_ok.
Qed.

Lemma estimate_lines_app out1 out2 :
  estimate_lines (out1 ++ out2) = estimate_lines out1 ++ estimate_lines out2.
Proof.
  induction out1 as [|[j|nq e] out1 IH]; simpl; [reflexivity|exact IH|now rewrite IH].
Qed.

Lemma seq_split_at a len n :
  In n (seq a len) -> seq a len = seq a (n - a) ++ n :: seq (S n) (a + len - S n).
Proof.
  intros Hin. apply in_seq in Hin.
  replace len with ((n - a) + S (a + len - S n)) at 1 by lia.
  rewrite seq_app. replace (a + (n - a)) with n by lia.
  now rewrite <- cons_seq.
Qed.

Lemma for_each_app {S A} (xs ys : list A) (body : A -> prog S unit) s :
  for_each (xs ++ ys) body s =
  match for_each xs body s with
  | (s1, Ok _) => for_each ys body s1
  | (s1, Raise e) => (s1, Raise e)
  end.
Proof.
  revert s. induction xs as [|a xs IH]; intros s; [reflexivity|].
  simpl. unfold bind. destruct (body a s) as [s1 [[]|e]]; [apply IH|reflexivity].
Qed.

Section DriverFacts.

Variable get_counts : job -> result counts.

(** One call of the driver, spelled out: the session it leaves and
    the value it returns or the exception it raises. *)
Lemma get_pi_estimate_run n s :
  get_pi_estimate get_counts n s =
  match estimation_circuit n (QuantumCircuit (n + 1) n) with
  | (circ, Ok _) =>
      let j := mkJob circ simulator 10000%Z 0%Z in
      (mkSession
         (files s ++ (if n <? 10 then [Py.str n ++ "_qubit_circuit.png"]%string else []))
         (stdout s ++ [JobStatus j]) (jobs s ++ [j]) (pi_estimates s),
       match get_counts j with
       | Ok cnts =>
           match theta_of_counts n cnts with
           | Ok theta => Py.fdiv 1 (Py.fmul 2 theta)
           | Raise e => Raise e
           end
       | Raise e => Raise e
       end)
  | (_, Raise e) => (s, Raise e)
  end.
Proof.
  unfold get_pi_estimate, on_circuit, bind at 1.
  destruct (estimation_circuit n (QuantumCircuit (n + 1) n)) as [circ [[]|e]];
    [|reflexivity].
  unfold bind, run_job, bind, execute, job_monitor, print, lift,
    draw_savefig, save_file, ret.
  destruct (n <? 10); cbn [files stdout jobs pi_estimates];
    rewrite ?app_nil_r;
    destruct (get_counts _) as [cnts|e]; try reflexivity;
    destruct (theta_of_counts n cnts) as [theta|e]; reflexivity.
Qed.


(** What the driver returns does not depend on the session. *)
Lemma get_pi_estimate_result n s :
  snd (get_pi_estimate get_counts n s) =
  match counts_of_run get_counts n with
  | Ok cnts =>
      match theta_of_counts n cnts with
      | Ok theta => Py.fdiv 1 (Py.fmul 2 theta)
      | Raise e => Raise e
      end
  | Raise e => Raise e
  end.
Proof.
  rewrite get_pi_estimate_run. unfold counts_of_run.
  destruct (estimation_circuit n (QuantumCircuit (n + 1) n)) as [circ [[]|e]];
    reflexivity.
Qed.

Lemma get_pi_estimate_result_fresh n s :
  snd (get_pi_estimate get_counts n s) = snd (get_pi_estimate get_counts n fresh).
Proof. now rewrite !get_pi_estimate_result. Qed.

(** A counts table is obtained only for 1 to 1024 qubits. *)
Lemma counts_of_run_range n cnts :
  counts_of_run get_counts n = Ok cnts -> 1 <= n <= 1024.
Proof.
  unfold counts_of_run. intros Hrun.
  destruct (Nat.eq_dec n 0) as [->|Hn0].
  - rewrite estimation_circuit_refused in Hrun. discriminate.
  - destruct (le_lt_dec n 1024) as [Hn|Hn]; [lia|].
    pose proof (estimation_circuit_never_ok n (QuantumCircuit (n + 1) n) Hn) as Hne.
    destruct (estimation_circuit n (QuantumCircuit (n + 1) n)) as [circ [[]|e]].
    + now contradiction Hne.
    + discriminate.
Qed.

(** A successful call: one job more, one status line more, and the
    global list untouched. *)
Lemma get_pi_estimate_ok n s v :
  snd (get_pi_estimate get_counts n fresh) = Ok v ->
  exists s',
    get_pi_estimate get_counts n s = (s', Ok v) /\
    pi_estimates s' = pi_estimates s /\
    estimate_lines (stdout s') = estimate_lines (stdout s) /\
    submitted s' = submitted s ++ [built_circuit n].
Proof.
  rewrite <- (get_pi_estimate_result_fresh n s).
  rewrite get_pi_estimate_run. unfold built_circuit, submitted.
  destruct (estimation_circuit n (QuantumCircuit (n + 1) n)) as [circ [[]|e]];
    [|discriminate].
  cbn [snd fst]. intros ->. eexists. split; [reflexivity|].
  cbn [pi_estimates stdout jobs].
  rewrite estimate_lines_app, map_app. simpl. now rewrite app_nil_r.
Qed.

Lemma get_pi_estimate_fails n s e :
  snd (get_pi_estimate get_counts n fresh) = Raise e ->
  exists s', get_pi_estimate get_counts n s = (s', Raise e) /\
             pi_estimates s' = pi_estimates s.
Proof.
  rewrite <- (get_pi_estimate_result_fresh n s).
  rewrite get_pi_estimate_run.
  destruct (estimation_circuit n (QuantumCircuit (n + 1) n)) as [circ [[]|e']].
  - cbn [snd]. intros ->. eexists. split; reflexivity.
  - cbn [snd]. intros ->. eexists. split; reflexivity.
Qed.

(** ** The sweep *)

Lemma sweep_body_ok nq s v :
  snd (get_pi_estimate get_counts nq fresh) = Ok v ->
  exists s',
    sweep_body get_counts nq s = (s', Ok tt) /\
    pi_estimates s' = pi_estimates s ++ [v] /\
    estimate_lines (stdout s') = estimate_lines (stdout s) ++ [(nq, v)] /\
    submitted s' = submitted s ++ [built_circuit nq].
Proof.
  intros Hv. destruct (get_pi_estimate_ok nq s v Hv) as (s1 & Hrun & Hpi & Hout & Hsub).
  unfold sweep_body. erewrite bind_ok by exact Hrun.
  unfold bind, pi_estimates_append, print. eexists. split; [reflexivity|].
  unfold submitted in *. cbn [pi_estimates stdout jobs].
  rewrite estimate_lines_app, Hpi, Hout, Hsub. repeat split.
Qed.

Lemma sweep_body_fails nq s e :
  snd (get_pi_estimate get_counts nq fresh) = Raise e ->
  exists s', sweep_body get_counts nq s = (s', Raise e) /\ pi_estimates s' = pi_estimates s.
Proof.
  intros He. destruct (get_pi_estimate_fails nq s e He) as (s1 & Hrun & Hpi).
  unfold sweep_body. erewrite bind_raise by exact Hrun. now exists s1.
Qed.

Lemma sweep_body_fails_quiet nq s err :
  snd (get_pi_estimate get_counts nq fresh) = Raise err ->
  exists s',
    sweep_body get_counts nq s = (s', Raise err) /\
    pi_estimates s' = pi_estimates s /\
    estimate_lines (stdout s') = estimate_lines (stdout s).
Proof.
  intros Herr. rewrite <- (get_pi_estimate_result_fresh nq s) in Herr.
  unfold sweep_body, bind.
  rewrite get_pi_estimate_run in *.
  destruct (estimation_circuit nq (QuantumCircuit (nq + 1) nq)) as [circ [[]|e]];
    cbv zeta in *; cbn [snd] in Herr.
  - rewrite Herr. eexists. split; [reflexivity|]. cbn [pi_estimates stdout].
    rewrite estimate_lines_app. simpl. now rewrite app_nil_r.
  - injection Herr as ->. exists s. repeat split.
Qed.

Lemma sweep_body_files nq s v :
  snd (get_pi_estimate get_counts nq fresh) = Ok v ->
  exists s',
    sweep_body get_counts nq s = (s', Ok tt) /\
    files s' = files s ++ (if nq <? 10 then [diagram_name nq] else []).
Proof.
  intros Hv. rewrite <- (get_pi_estimate_result_fresh nq s) in Hv.
  unfold sweep_body, bind. rewrite get_pi_estimate_run in *.
  destruct (estimation_circuit nq (QuantumCircuit (nq + 1) nq)) as [circ [[]|e]];
    cbv zeta in *; cbn [snd] in Hv; [|discriminate].
  rewrite Hv. eexists. split; reflexivity.
Qed.

Lemma sweep_loop_ok (e : nat -> pyfloat) l :
  (forall nq, In nq l -> snd (get_pi_estimate get_counts nq fresh) = Ok (e nq)) ->
  forall s, exists s',
    for_each l (sweep_body get_counts) s = (s', Ok tt) /\
    pi_estimates s' = pi_estimates s ++ map e l /\
    estimate_lines (stdout s') =
      estimate_lines (stdout s) ++ map (fun nq => (nq, e nq)) l /\
    submitted s' = submitted s ++ map built_circuit l.
Proof.
  induction l as [|nq l IH]; intros Hall s.
  - exists s. simpl. now rewrite !app_nil_r.
  - destruct (sweep_body_ok nq s _ (Hall nq (or_introl eq_refl)))
      as (s1 & Hrun & Hpi & Hout & Hsub).
    destruct (IH (fun m Hm => Hall m (or_intror Hm)) s1)
      as (s2 & Hrun2 & Hpi2 & Hout2 & Hsub2).
    exists s2. simpl for_each. erewrite bind_ok by exact Hrun.
    split; [exact Hrun2|].
    rewrite Hpi2, Hout2, Hsub2, Hpi, Hout, Hsub.
    simpl map. rewrite <- !app_assoc. repeat split.
Qed.

(** The loop stops at the first qubit count whose estimation raises:
    the exception goes through, and only the earlier results are kept. *)
Lemma sweep_loop_first_failure pre nq post err :
  (forall m, In m pre -> exists v, snd (get_pi_estimate get_counts m fresh) = Ok v) ->
  snd (get_pi_estimate get_counts nq fresh) = Raise err ->
  forall s, exists s',
    for_each (pre ++ nq :: post) (sweep_body get_counts) s = (s', Raise err) /\
    List.length (pi_estimates s') = List.length (pi_estimates s) + List.length pre.
Proof.
  induction pre as [|m pre IH]; intros Hall Herr s.
  - destruct (sweep_body_fails nq s err Herr) as (s1 & Hrun & Hpi).
    exists s1. simpl. erewrite bind_raise by exact Hrun.
    split; [reflexivity|]. rewrite Hpi. lia.
  - destruct (Hall m (or_introl eq_refl)) as (v & Hv).
    destruct (sweep_body_ok m s v Hv) as (s1 & Hrun & Hpi & _).
    destruct (IH (fun k Hk => Hall k (or_intror Hk)) Herr s1)
      as (s2 & Hrun2 & Hpi2).
    exists s2. simpl. erewrite bind_ok by exact Hrun.
    split; [exact Hrun2|]. rewrite Hpi2, Hpi, length_app. simpl. lia.
Qed.

(** A failing qubit count anywhere in the list keeps the loop from
    completing. *)
Lemma sweep_loop_aborts l nq err :
  In nq l ->
  snd (get_pi_estimate get_counts nq fresh) = Raise err ->
  forall s, exists s' err', for_each l (sweep_body get_counts) s = (s', Raise err').
Proof.
  induction l as [|m l IH]; intros Hin Herr s; [destruct Hin|].
  destruct (snd (get_pi_estimate get_counts m fresh)) as [v|err0] eqn:Hm.
  - destruct (sweep_body_ok m s v Hm) as (s1 & Hrun & _).
    destruct Hin as [->|Hin]; [congruence|].
    destruct (IH Hin Herr s1) as (s2 & err' & Hrun2).
    exists s2, err'. simpl. erewrite bind_ok by exact Hrun. exact Hrun2.
  - destruct (sweep_body_fails m s err0 Hm) as (s1 & Hrun & _).
    exists s1, err0. simpl. erewrite bind_raise by exact Hrun. reflexivity.
Qed.

Lemma sweep_loop_files l :
  (forall nq, In nq l -> exists v, snd (get_pi_estimate get_counts nq fresh) = Ok v) ->
  forall s,
    files (fst (for_each l (sweep_body get_counts) s)) =
    files s ++ flat_map (fun nq => if nq <? 10 then [diagram_name nq] else []) l.
Proof.
  induction l as [|nq l IH]; intros Hall s.
  - simpl. now rewrite app_nil_r.
  - destruct (Hall nq (or_introl eq_refl)) as (v & Hv).
    destruct (sweep_body_files nq s v Hv) as (s1 & Hrun & Hfiles).
    simpl for_each. erewrite bind_ok by exact Hrun.
    rewrite (IH (fun m Hm => Hall m (or_intror Hm)) s1), Hfiles.
    simpl flat_map. now rewrite <- app_assoc.
Qed.

Lemma sweep_unfold s :
  sweep get_counts s =
  for_each nqs (sweep_body get_counts)
    (mkSession (files s) (stdout s) (jobs s) []).
Proof. reflexivity. Qed.

End DriverFacts.

(** ** Reading the counts table *)

Lemma scan_in {A} (key : A -> Z) xs :
  forall best, In (PyMax.scan key best xs) (best :: xs).
Proof.
  induction xs as [|a xs IH]; intros best; simpl; [now left|].
  destruct (IH (if (key best <? key a)%Z then a else best)) as [E|Hin].
  - rewrite <- E. destruct (key best <? key a)%Z; auto.
  - now right; right.
Qed.

Lemma scan_highest {A} (key : A -> Z) xs :
  forall best a, In a (best :: xs) -> (key a <= key (PyMax.scan key best xs))%Z.
Proof.
  induction xs as [|b xs IH]; intros best a Hin; simpl.
  - destruct Hin as [->|[]]. lia.
  - assert (Hstep : (key best <= key (if (key best <? key b)%Z then b else best))%Z /\
                    (key b <= key (if (key best <? key b)%Z then b else best))%Z)
      by (destruct (Z.ltb_spec (key best) (key b)); lia).
    destruct Hstep as [Hbest Hb].
    destruct Hin as [->|[->|Hin]].
    + eapply Z.le_trans; [exact Hbest|]. apply IH. now left.
    + eapply Z.le_trans; [exact Hb|]. apply IH. now left.
    + apply IH. now right.
Qed.

(** [max] on a non-empty sequence returns one of its items, of highest
    key value. *)
Lemma max_spec {A} (key : A -> Z) xs :
  xs <> [] ->
  exists best, PyMax.max xs key = Ok best /\ In best xs /\
               forall a, In a xs -> (key a <= key best)%Z.
Proof.
  destruct xs as [|a xs]; [congruence|]. intros _.
  exists (PyMax.scan key a xs). split; [reflexivity|]. split.
  - apply scan_in.
  - intros b Hb. now apply scan_highest.
Qed.

Lemma scan_first {A} (key : A -> Z) xs :
  forall best, exists pre post,
    best :: xs = pre ++ PyMax.scan key best xs :: post /\
    (forall a, In a pre -> (key a < key (PyMax.scan key best xs))%Z) /\
    (forall a, In a post -> (key a <= key (PyMax.scan key best xs))%Z).
Proof.
  induction xs as [|a xs IH]; intros best.
  - exists [], []. simpl. repeat split; intros b [].
  - simpl PyMax.scan.
    destruct (Z.ltb_spec (key best) (key a)) as [Hlt|Hge].
    + destruct (IH a) as (pre & post & Heq & Hpre & Hpost).
      exists (best :: pre), post. split; [simpl; now rewrite Heq|].
      split; [|exact Hpost].
      intros b [<-|Hb]; [|now apply Hpre].
      eapply Z.lt_le_trans; [exact Hlt|].
      apply scan_highest. now left.
    + destruct (IH best) as (pre & post & Heq & Hpre & Hpost).
      destruct pre as [|b pre].
      * simpl in Heq. injection Heq as Hbest Hxs.
        exists [], (a :: post). split; [simpl; now rewrite <- Hbest, Hxs|].
        split; [intros b []|].
        intros b [<-|Hb]; [rewrite <- Hbest; lia|now apply Hpost].
      * simpl in Heq. injection Heq as <- Hxs.
        exists (best :: a :: pre), post.
        split; [simpl; do 2 f_equal; exact Hxs|]. split; [|exact Hpost].
        assert (Hbest : (key best < key (PyMax.scan key best xs))%Z)
          by (apply Hpre; now left).
        intros c [<-|[<-|Hc]]; [exact Hbest|lia|apply Hpre; now right].
Qed.

(** Looking up a key of the table gives the count listed with it. *)
Lemma counts_get_in cnts key v :
  NoDup (keys cnts) -> In (key, v) cnts -> counts_get cnts key = v.
Proof.
  induction cnts as [|[k0 v0] cnts IH]; intros Hnd Hin; [destruct Hin|].
  simpl in Hnd. apply NoDup_cons_iff in Hnd. destruct Hnd as [Hk0 Hnd].
  simpl. destruct Hin as [[= <- <-]|Hin].
  - now rewrite String.eqb_refl.
  - destruct (String.eqb_spec key k0) as [->|_]; [|now apply IH].
    exfalso. apply Hk0. change k0 with (fst (k0, v)). now apply in_map.
Qed.

Lemma in_keys cnts key :
  In key (keys cnts) -> In (key, counts_get cnts key) cnts.
Proof.
  induction cnts as [|[k0 v0] cnts IH]; intros Hin; [destruct Hin|].
  simpl. destruct (String.eqb_spec key k0) as [->|Hne]; [now left|].
  right. apply IH. destruct Hin as [E|Hin]; [simpl in E; congruence|exact Hin].
Qed.

Lemma binary_value_bound s :
  (0 <= binary_value s < 2 ^ Z.of_nat (String.length s))%Z.
Proof.
  induction s as [|ch s IH]; [simpl; lia|].
  cbn [binary_value String.length]. rewrite Nat2Z.inj_succ, Z.pow_succ_r by lia.
  destruct (Ascii.eqb ch "1"); lia.
Qed.

(** Reading binary digits from the left computes the binary value. *)
Lemma digits_value s :
  forall acc, all_bits s = true ->
  PyInt.digits s acc = Ok (acc * 2 ^ Z.of_nat (String.length s) + binary_value s)%Z.
Proof.
  induction s as [|ch s IH]; intros acc Hbits.
  - simpl. f_equal. lia.
  - simpl in Hbits. apply andb_true_iff in Hbits. destruct Hbits as [Hch Hs].
    cbn [PyInt.digits binary_value String.length].
    rewrite Nat2Z.inj_succ, Z.pow_succ_r by lia.
    destruct (Ascii.eqb_spec ch "0") as [->|H0].
    + rewrite (IH _ Hs). change (Ascii.eqb "0" "1") with false. cbv iota.
      f_equal. lia.
    + simpl in Hch. rewrite Hch. rewrite (IH _ Hs). f_equal. lia.
Qed.

(** An outcome of n >= 1 bits decodes to its binary value, a number
    below 2^n. *)
Lemma parse2_value n s :
  1 <= n -> is_bitstring n s = true ->
  PyInt.parse2 s = Ok (binary_value s) /\ (0 <= binary_value s < 2 ^ Z.of_nat n)%Z.
Proof.
  unfold is_bitstring. intros Hn Hs.
  apply andb_true_iff in Hs. destruct Hs as [Hlen Hbits].
  apply Nat.eqb_eq in Hlen. subst n. split; [|apply binary_value_bound].
  destruct s as [|ch s]; [simpl in Hn; lia|].
  unfold PyInt.parse2. now rewrite (digits_value _ 0 Hbits).
Qed.

Lemma theta_bounds k n :
  (0 <= k < 2 ^ Z.of_nat n)%Z ->
  (0 <= inject_Z k / inject_Z (2 ^ Z.of_nat n) /\
   inject_Z k / inject_Z (2 ^ Z.of_nat n) < 1)%Q.
Proof.
  intros [Hlo Hhi]. pose proof (Zpow2_pos n) as Hp.
  assert (HpQ : (0 < inject_Z (2 ^ Z.of_nat n))%Q) by now apply inject_Z_pos.
  split.
  - apply Qle_shift_div_l; [exact HpQ|]. rewrite Qmult_0_l.
    rewrite (Zle_Qle 0 k) in Hlo. exact Hlo.
  - apply Qlt_shift_div_r; [exact HpQ|]. rewrite Qmult_1_l.
    rewrite Zlt_Qlt in Hhi. exact Hhi.
Qed.

(** Up to 53 bits every outcome is below 2^53. *)
Lemma outcome_below_2_53 k n :
  n <= 53 -> (k < 2 ^ Z.of_nat n)%Z -> (k < 2 ^ 53)%Z.
Proof.
  intros Hn Hk. eapply Z.lt_le_trans; [exact Hk|].
  apply Z.pow_le_mono_r; lia.
Qed.

(** The double nearest to 2^(n-1)/k stays between 1/2 and 2^(n-1). *)
Lemma estimate_rounded_bounds k (n : nat) :
  1 <= n -> (1 <= k < 2 ^ Z.of_nat n)%Z ->
  (1 # 2 <= Double.round (inject_Z (2 ^ (Z.of_nat n - 1)) / inject_Z k) /\
   Double.round (inject_Z (2 ^ (Z.of_nat n - 1)) / inject_Z k)
   <= inject_Z (2 ^ (Z.of_nat n - 1)))%Q.
Proof.
  intros Hn Hk. destruct (estimate_exact_bounds k n Hn Hk) as [Hlo Hhi].
  set (x := (inject_Z (2 ^ (Z.of_nat n - 1)) / inject_Z k)%Q) in *.
  assert (Hx : (0 < x)%Q) by (eapply Qlt_le_trans; [apply (pow2_pos (-1))|exact Hlo]).
  rewrite (round_pos x Hx).
  assert (He : (-1022 <= Double.ilog2 x)%Z).
  { destruct (ilog2_spec x Hx) as [_ Hup].
    assert (-1 < Double.ilog2 x + 1)%Z
      by (apply pow2_lt_inv; eapply Qle_lt_trans; eassumption).
    lia. }
  split.
  - change (1 # 2)%Q with (Double.pow2 (-1)).
    apply round_pos_ge_pow2; [exact Hlo|lia].
  - rewrite <- (pow2_inject (Z.of_nat n - 1)) by lia.
    apply round_pos_le_pow2; assumption.
Qed.

(** * The claims about the driver and the sweep *)

(** C4 (as amended).  Whenever a run of [get_pi_estimate] for n qubits
    obtains a non-empty counts table of n-bit outcomes, it selects an
    outcome whose count no other count in the table exceeds, decodes
    it to the integer k it denotes in binary, computes theta = k / 2^n
    by float division and returns [1./(2*theta)].  For k = 0 that
    raises [ZeroDivisionError]; for 0 < k < 2^53 (every nonzero
    outcome of up to 53 bits) theta is exactly k / 2^n and the value
    returned is the double nearest to 2^(n-1)/k. *)
Theorem get_pi_estimate_value (get_counts : job -> result counts)
    (n : nat) (s : session) (cnts : counts) :
  counts_of_run get_counts n = Ok cnts ->
  cnts <> [] ->
  NoDup (keys cnts) ->
  Forall (fun key => is_bitstring n key = true) (keys cnts) ->
  exists key v,
    In (key, v) cnts /\
    (forall key' v', In (key', v') cnts -> (v' <= v)%Z) /\
    PyInt.parse2 key = Ok (binary_value key) /\
    theta_of_counts n cnts = Py.truediv (binary_value key) (2 ^ Z.of_nat n) /\
    snd (get_pi_estimate get_counts n s) =
      match Py.truediv (binary_value key) (2 ^ Z.of_nat n) with
      | Ok theta => Py.fdiv 1 (Py.fmul 2 theta)
      | Raise e => Raise e
      end /\
    (binary_value key = 0%Z ->
     snd (get_pi_estimate get_counts n s) = Raise ZeroDivisionError) /\
    ((0 < binary_value key < 2 ^ 53)%Z ->
     theta_of_counts n cnts =
       Ok (Qred (inject_Z (binary_value key) / inject_Z (2 ^ Z.of_nat n))) /\
     snd (get_pi_estimate get_counts n s) =
       Ok (Finite (Double.round
                     (inject_Z (2 ^ (Z.of_nat n - 1)) / inject_Z (binary_value key))))).
Proof.
  intros Hrun Hne Hnodup Hbits. rewrite Forall_forall in Hbits.
  pose proof (counts_of_run_range get_counts n cnts Hrun) as Hn.
  assert (Hkeys : keys cnts <> []) by (destruct cnts; [congruence|discriminate]).
  destruct (max_spec (counts_get cnts) (keys cnts) Hkeys) as (key & Hmax & Hin & Hhigh).
  destruct (parse2_value n key) as [Hparse Hk]; [lia|now apply Hbits|].
  assert (Htheta : theta_of_counts n cnts
                   = Py.truediv (binary_value key) (2 ^ Z.of_nat n)).
  { unfold theta_of_counts. now rewrite Hmax, Hparse. }
  assert (Hres : snd (get_pi_estimate get_counts n s) =
                 match Py.truediv (binary_value key) (2 ^ Z.of_nat n) with
                 | Ok theta => Py.fdiv 1 (Py.fmul 2 theta)
                 | Raise e => Raise e
                 end).
  { rewrite get_pi_estimate_result, Hrun, Htheta. reflexivity. }
  exists key, (counts_get cnts key).
  split; [now apply in_keys|]. split.
  { intros key' v' Hin'. rewrite <- (counts_get_in cnts key' v' Hnodup Hin').
    apply Hhigh. change key' with (fst (key', v')). now apply in_map. }
  split; [exact Hparse|]. split; [exact Htheta|]. split; [exact Hres|]. split.
  - intros Hzero. rewrite Hres, Hzero, truediv_zero. apply estimate_zero_mode_raise.
  - intros [Hpos H53].
    assert (Hdiv : Py.truediv (binary_value key) (2 ^ Z.of_nat n)
                   = Ok (Qred (inject_Z (binary_value key) / inject_Z (2 ^ Z.of_nat n))))
      by (apply truediv_pow2; lia).
    split; [now rewrite Htheta|].
    rewrite Hres, Hdiv. apply estimate_value; lia.
Qed.

Lemma get_pi_estimate_value_witness :
  counts_of_run backend_3 4 = Ok [("0100"%string, 1500%Z); ("0011"%string, 8500%Z)] /\
  [("0100"%string, 1500%Z); ("0011"%string, 8500%Z)] <> [] /\
  NoDup (keys [("0100"%string, 1500%Z); ("0011"%string, 8500%Z)]) /\
  Forall (fun key => is_bitstring 4 key = true)
    (keys [("0100"%string, 1500%Z); ("0011"%string, 8500%Z)]) /\
  exists key v,
    In (key, v) [("0100"%string, 1500%Z); ("0011"%string, 8500%Z)] /\
    (forall key' v', In (key', v') [("0100"%string, 1500%Z); ("0011"%string, 8500%Z)] ->
       (v' <= v)%Z) /\
    PyInt.parse2 key = Ok (binary_value key) /\
    theta_of_counts 4 [("0100"%string, 1500%Z); ("0011"%string, 8500%Z)]
      = Py.truediv (binary_value key) (2 ^ Z.of_nat 4) /\
    snd (get_pi_estimate backend_3 4 fresh) =
      match Py.truediv (binary_value key) (2 ^ Z.of_nat 4) with
      | Ok theta => Py.fdiv 1 (Py.fmul 2 theta)
      | Raise e => Raise e
      end /\
    (binary_value key = 0%Z ->
     snd (get_pi_estimate backend_3 4 fresh) = Raise ZeroDivisionError) /\
    ((0 < binary_value key < 2 ^ 53)%Z ->
     theta_of_counts 4 [("0100"%string, 1500%Z); ("0011"%string, 8500%Z)] =
       Ok (Qred (inject_Z (binary_value key) / inject_Z (2 ^ Z.of_nat 4))) /\
     snd (get_pi_estimate backend_3 4 fresh) =
       Ok (Finite (Double.round
                     (inject_Z (2 ^ (Z.of_nat 4 - 1)) / inject_Z (binary_value key))))).
Proof.
  assert (Hnodup : NoDup (keys [("0100"%string, 1500%Z); ("0011"%string, 8500%Z)])).
  { repeat constructor; simpl; intuition discriminate. }
  split; [vm_compute; reflexivity|].
  split; [discriminate|].
  split; [exact Hnodup|].
  split; [repeat constructor|].
  apply (get_pi_estimate_value backend_3 4 fresh
           [("0100"%string, 1500%Z); ("0011"%string, 8500%Z)]).
  - vm_compute; reflexivity.
  - discriminate.
  - exact Hnodup.
  - repeat constructor.
Defined.

(** C4 as stated fails: with four qubits and the most frequent outcome
    0011, k = 3, the value returned is the double
    2.6666666666666665, which is not 2^3/3. *)
Lemma estimate_is_not_the_exact_quotient :
  snd (get_pi_estimate backend_3 4 fresh)
    = Ok (Finite (6004799503160661 # 2251799813685248)) /\
  ~ (6004799503160661 # 2251799813685248 == inject_Z (2 ^ (4 - 1)) / inject_Z 3)%Q.
Proof.
  split; [vm_compute; reflexivity|]. intros E. vm_compute in E. discriminate E.
Qed.

(** C5.  If the most frequent outcome decodes to 0, the division in
    [get_pi_estimate] raises [ZeroDivisionError], nothing catches it,
    and a sweep that contains this qubit count does not complete: it
    ends in an exception, which is this one when every earlier qubit
    count gave an estimate, and only the earlier estimates are
    collected. *)
Theorem zero_mode_aborts (get_counts : job -> result counts)
    (n : nat) (s : session) (cnts : counts) (key : string) :
  counts_of_run get_counts n = Ok cnts ->
  PyMax.max (keys cnts) (counts_get cnts) = Ok key ->
  PyInt.parse2 key = Ok 0%Z ->
  snd (get_pi_estimate get_counts n s) = Raise ZeroDivisionError /\
  (In n nqs -> exists err, snd (sweep get_counts s) = Raise err) /\
  (In n nqs ->
   (forall m, In m nqs -> m < n ->
      exists v, snd (get_pi_estimate get_counts m fresh) = Ok v) ->
   snd (sweep get_counts s) = Raise ZeroDivisionError /\
   List.length (pi_estimates (fst (sweep get_counts s))) = n - 2).
Proof.
  intros Hrun Hmax Hzero.
  assert (Hfail : forall s', snd (get_pi_estimate get_counts n s') = Raise ZeroDivisionError).
  { intros s'. rewrite get_pi_estimate_result, Hrun. unfold theta_of_counts.
    rewrite Hmax, Hzero, truediv_zero. apply estimate_zero_mode_raise. }
  split; [apply Hfail|]. split.
  - intros Hin. rewrite sweep_unfold.
    destruct (sweep_loop_aborts get_counts nqs n _ Hin (Hfail fresh)
                (mkSession (files s) (stdout s) (jobs s) [])) as (s' & err & Hs').
    exists err. now rewrite Hs'.
  - intros Hin Hearlier. rewrite sweep_unfold.
    unfold nqs, Py.range2 in *. rewrite (seq_split_at 2 (12 + 1 - 2) n Hin).
    destruct (sweep_loop_first_failure get_counts (seq 2 (n - 2)) n
                (seq (S n) (2 + (12 + 1 - 2) - S n)) ZeroDivisionError)
      with (s := mkSession (files s) (stdout s) (jobs s) []) as (s' & Hs' & Hlen).
    + intros m Hm. apply Hearlier.
      * apply in_seq in Hm. apply in_seq in Hin. apply in_seq. lia.
      * apply in_seq in Hm. apply in_seq in Hin. lia.
    + apply Hfail.
    + rewrite Hs'. split; [reflexivity|].
      cbn [fst]. rewrite Hlen, length_seq. reflexivity.
Qed.

Lemma zero_mode_aborts_witness :
  counts_of_run backend_zero 2 = Ok [("00"%string, 10000%Z)] /\
  PyMax.max (keys [("00"%string, 10000%Z)]) (counts_get [("00"%string, 10000%Z)])
    = Ok "00"%string /\
  PyInt.parse2 "00" = Ok 0%Z /\
  snd (get_pi_estimate backend_zero 2 fresh) = Raise ZeroDivisionError /\
  (In 2 nqs -> exists err, snd (sweep backend_zero fresh) = Raise err) /\
  (In 2 nqs ->
   (forall m, In m nqs -> m < 2 ->
      exists v, snd (get_pi_estimate backend_zero m fresh) = Ok v) ->
   snd (sweep backend_zero fresh) = Raise ZeroDivisionError /\
   List.length (pi_estimates (fst (sweep backend_zero fresh))) = 2 - 2).
Proof.
  split; [vm_compute; reflexivity|].
  split; [reflexivity|].
  split; [reflexivity|].
  apply (zero_mode_aborts backend_zero 2 fresh [("00"%string, 10000%Z)] "00"%string).
  - vm_compute; reflexivity.
  - reflexivity.
  - reflexivity.
Defined.

(** C6 (as amended).  Up to 53 qubits, on a counts table whose keys
    are n-bit bitstrings, the intermediate value theta = mode / 2^n of
    [get_pi_estimate] lies in [0, 1); and it is computed whenever
    n >= 1 and the table is not empty. *)
Theorem theta_in_unit_interval (n : nat) (cnts : counts) :
  n <= 53 ->
  Forall (fun key => is_bitstring n key = true) (keys cnts) ->
  (forall theta, theta_of_counts n cnts = Ok theta -> (0 <= theta /\ theta < 1)%Q) /\
  (1 <= n -> cnts <> [] -> exists theta, theta_of_counts n cnts = Ok theta).
Proof.
  intros Hn53 Hbits. rewrite Forall_forall in Hbits. split.
  - intros theta. unfold theta_of_counts.
    destruct (PyMax.max (keys cnts) (counts_get cnts)) as [key|e] eqn:Hmax;
      [|discriminate].
    assert (Hin : In key (keys cnts)).
    { destruct (keys cnts) as [|a ks]; [discriminate|].
      injection Hmax as <-. apply scan_in. }
    destruct (Nat.eq_dec n 0) as [Hn0|Hn0].
    { specialize (Hbits key Hin). unfold is_bitstring in Hbits. rewrite Hn0 in Hbits.
      apply andb_true_iff in Hbits. destruct Hbits as [Hlen _].
      apply Nat.eqb_eq in Hlen. destruct key; [|discriminate Hlen]. discriminate. }
    destruct (parse2_value n key) as [-> Hk]; [lia|now apply Hbits|].
    rewrite truediv_pow2; [|exact Hk|apply (outcome_below_2_53 _ n); lia|lia].
    intros E.
    assert (Et : theta = Qred (inject_Z (binary_value key) / inject_Z (2 ^ Z.of_nat n)))
      by congruence.
    rewrite Et. destruct (theta_bounds (binary_value key) n Hk) as [Hlo Hhi].
    split; rewrite Qred_correct; assumption.
  - intros Hn Hne.
    assert (Hkeys : keys cnts <> []) by (destruct cnts; [congruence|discriminate]).
    destruct (max_spec (counts_get cnts) (keys cnts) Hkeys) as (key & Hmax & Hin & _).
    destruct (parse2_value n key Hn (Hbits key Hin)) as [Hparse Hk].
    exists (Qred (inject_Z (binary_value key) / inject_Z (2 ^ Z.of_nat n))).
    unfold theta_of_counts. rewrite Hmax, Hparse.
    apply truediv_pow2; [exact Hk|apply (outcome_below_2_53 _ n); lia|lia].
Qed.

Lemma theta_in_unit_interval_witness :
  2 <= 53 /\
  Forall (fun key => is_bitstring 2 key = true)
    (keys [("01"%string, 7000%Z); ("11"%string, 3000%Z)]) /\
  (forall theta,
     theta_of_counts 2 [("01"%string, 7000%Z); ("11"%string, 3000%Z)] = Ok theta ->
     (0 <= theta /\ theta < 1)%Q) /\
  (1 <= 2 -> [("01"%string, 7000%Z); ("11"%string, 3000%Z)] <> [] ->
   exists theta, theta_of_counts 2 [("01"%string, 7000%Z); ("11"%string, 3000%Z)] = Ok theta).
Proof.
  split; [lia|]. split; [repeat constructor|].
  apply (theta_in_unit_interval 2 [("01"%string, 7000%Z); ("11"%string, 3000%Z)]).
  - lia.
  - repeat constructor.
Defined.

(** C6 as stated fails from 54 qubits on: for the outcome of 54 ones
    the quotient (2^54 - 1) / 2^54 rounds to the double 1.0, so theta
    is 1 and not below 1. *)
Lemma theta_reaches_one_at_54 :
  Forall (fun key => is_bitstring 54 key = true) (keys [(ones 54, 10000%Z)]) /\
  theta_of_counts 54 [(ones 54, 10000%Z)] = Ok 1%Q /\
  ~ (1 < 1)%Q.
Proof.
  split; [repeat constructor|]. split; [vm_compute; reflexivity|].
  intros Hlt. discriminate Hlt.
Qed.

(** C7 (as amended).  When the caller supplies neither, [run_job]
    submits its job with 1000 shots and optimization level 0. *)
Theorem run_job_defaults (get_counts : job -> result counts)
    (circ_ : circuit) (backend_ : backend) (s : session) :
  run_job get_counts circ_ backend_ None None s =
    run_job get_counts circ_ backend_ (Some 1000%Z) (Some 0%Z) s /\
  jobs (fst (run_job get_counts circ_ backend_ None None s)) =
    jobs s ++ [mkJob circ_ backend_ 1000%Z 0%Z].
Proof.
  split; [reflexivity|].
  unfold run_job, bind, execute, job_monitor, print, lift, kwarg.
  reflexivity.
Qed.

(** C7 as stated fails: a job submitted without a shot count does not
    run 10000 shots. *)
Lemma default_shots_not_10000 :
  map job_shots
    (jobs (fst (run_job backend_01 (QuantumCircuit 1 0) simulator None None fresh)))
  <> [10000%Z].
Proof. vm_compute. discriminate. Qed.

(** C8.  The sweep visits the qubit counts 2, 3, ..., 12 in this
    order.  When the estimation driver returns an estimate [e nq] for
    each of them, the sweep completes, has submitted exactly one
    circuit per qubit count, in order, has collected the 11 estimates
    in that order, and has printed one estimate line per qubit count,
    in that order. *)
Theorem sweep_collects (get_counts : job -> result counts)
    (e : nat -> pyfloat) (s : session) :
  (forall nq, In nq nqs -> snd (get_pi_estimate get_counts nq fresh) = Ok (e nq)) ->
  nqs = [2; 3; 4; 5; 6; 7; 8; 9; 10; 11; 12] /\
  snd (sweep get_counts s) = Ok tt /\
  submitted (fst (sweep get_counts s)) = submitted s ++ map built_circuit nqs /\
  pi_estimates (fst (sweep get_counts s)) = map e nqs /\
  List.length (pi_estimates (fst (sweep get_counts s))) = 11 /\
  estimate_lines (stdout (fst (sweep get_counts s))) =
    estimate_lines (stdout s) ++ map (fun nq => (nq, e nq)) nqs.
Proof.
  intros Hall. split; [reflexivity|].
  rewrite sweep_unfold.
  destruct (sweep_loop_ok get_counts e nqs Hall
              (mkSession (files s) (stdout s) (jobs s) []))
    as (s' & Hrun & Hpi & Hout & Hsub).
  rewrite Hrun. cbn [fst snd].
  split; [reflexivity|]. split; [exact Hsub|].
  split; [exact Hpi|]. split; [|exact Hout].
  rewrite Hpi. cbn [pi_estimates app]. now rewrite length_map.
Qed.

Lemma sweep_collects_witness :
  (forall nq, In nq nqs ->
     snd (get_pi_estimate backend_01 nq fresh) = Ok (Finite (inject_Z (2 ^ (Z.of_nat nq - 1))))) /\
  nqs = [2; 3; 4; 5; 6; 7; 8; 9; 10; 11; 12] /\
  snd (sweep backend_01 fresh) = Ok tt /\
  submitted (fst (sweep backend_01 fresh)) = submitted fresh ++ map built_circuit nqs /\
  pi_estimates (fst (sweep backend_01 fresh))
    = map (fun nq => Finite (inject_Z (2 ^ (Z.of_nat nq - 1)))) nqs /\
  List.length (pi_estimates (fst (sweep backend_01 fresh))) = 11 /\
  estimate_lines (stdout (fst (sweep backend_01 fresh))) =
    estimate_lines (stdout fresh) ++ map (fun nq => (nq, Finite (inject_Z (2 ^ (Z.of_nat nq - 1))))) nqs.
Proof.
  assert (Hall : forall nq, In nq nqs ->
            snd (get_pi_estimate backend_01 nq fresh) = Ok (Finite (inject_Z (2 ^ (Z.of_nat nq - 1))))).
  { intros nq Hin. unfold nqs, Py.range2 in Hin. simpl in Hin.
    repeat (destruct Hin as [<-|Hin]; [vm_compute; reflexivity|]).
    destruct Hin. }
  split; [exact Hall|].
  apply (sweep_collects backend_01 (fun nq => Finite (inject_Z (2 ^ (Z.of_nat nq - 1)))) fresh Hall).
Defined.




(** * Further properties of the driver and the sweep *)

(** X5.  From 1 to 1024 qubits, the circuit [get_pi_estimate] builds
    has n+1 qubits and n classical bits and consists, in this order,
    of the state preparation, a barrier across all n+1 qubits, the
    inverse transform, a second such barrier, and one measurement of
    qubit i into bit i for each i < n (the auxiliary qubit is not
    measured). *)
Theorem built_circuit_layout (n : nat) :
  1 <= n <= 1024 ->
  estimation_circuit n (QuantumCircuit (n + 1) n) =
  (mkCircuit (n + 1) n
     (qpe_pre_spec n ++ [Barrier (seq 0 (n + 1))] ++
      qft_dagger_spec n ++ [Barrier (seq 0 (n + 1))] ++
      map (fun i => Measure i i) (seq 0 n)),
   Ok tt).
Proof. apply estimation_circuit_built. Qed.

Lemma built_circuit_layout_witness :
  1 <= 2 <= 1024 /\
  estimation_circuit 2 (QuantumCircuit (2 + 1) 2) =
  (mkCircuit (2 + 1) 2
     (qpe_pre_spec 2 ++ [Barrier (seq 0 (2 + 1))] ++
      qft_dagger_spec 2 ++ [Barrier (seq 0 (2 + 1))] ++
      map (fun i => Measure i i) (seq 0 2)),
   Ok tt).
Proof. split; [lia|]. apply (built_circuit_layout 2). lia. Defined.

(** X7.  When the backend answers with an empty counts table,
    [get_pi_estimate] raises [ValueError] (the [max] of an empty
    sequence). *)
Theorem empty_counts_raise (get_counts : job -> result counts)
    (n : nat) (s : session) :
  counts_of_run get_counts n = Ok [] ->
  snd (get_pi_estimate get_counts n s) = Raise ValueError.
Proof.
  intros Hrun. rewrite get_pi_estimate_result, Hrun. reflexivity.
Qed.

Lemma empty_counts_raise_witness :
  counts_of_run (fun _ => Ok []) 3 = Ok [] /\
  snd (get_pi_estimate (fun _ => Ok []) 3 fresh) = Raise ValueError.
Proof.
  split; [vm_compute; reflexivity|].
  apply (empty_counts_raise (fun _ => Ok []) 3 fresh). vm_compute; reflexivity.
Defined.

(** X8.  From 1 to 1024 qubits, a fault of the backend goes through
    [get_pi_estimate] unchanged; by then the job has been submitted
    and its status reported, and for n < 10 the diagram has been
    saved. *)
Theorem backend_fault_propagates (get_counts : job -> result counts)
    (n : nat) (s : session) (e : exn) :
  1 <= n <= 1024 ->
  get_counts (mkJob (built_circuit n) simulator 10000%Z 0%Z) = Raise e ->
  get_pi_estimate get_counts n s =
  (mkSession
     (files s ++ (if n <? 10 then [diagram_name n] else []))
     (stdout s ++ [JobStatus (mkJob (built_circuit n) simulator 10000%Z 0%Z)])
     (jobs s ++ [mkJob (built_circuit n) simulator 10000%Z 0%Z])
     (pi_estimates s),
   Raise e).
Proof.
  intros Hn He. rewrite get_pi_estimate_run, (estimation_circuit_ok n Hn).
  cbv zeta. rewrite He. reflexivity.
Qed.

Lemma backend_fault_propagates_witness :
  1 <= 2 <= 1024 /\
  (fun _ : job => @Raise counts BackendError)
    (mkJob (built_circuit 2) simulator 10000%Z 0%Z) = Raise BackendError /\
  get_pi_estimate (fun _ => Raise BackendError) 2 fresh =
  (mkSession
     (files fresh ++ (if 2 <? 10 then [diagram_name 2] else []))
     (stdout fresh ++ [JobStatus (mkJob (built_circuit 2) simulator 10000%Z 0%Z)])
     (jobs fresh ++ [mkJob (built_circuit 2) simulator 10000%Z 0%Z])
     (pi_estimates fresh),
   Raise BackendError).
Proof.
  split; [lia|]. split; [reflexivity|].
  apply (backend_fault_propagates (fun _ => Raise BackendError) 2 fresh BackendError).
  - lia.
  - reflexivity.
Defined.

(** X9.  Whatever the backend answers, a call of [get_pi_estimate]
    for 1 to 1024 qubits leaves the global list of estimates alone and
    submits exactly one job, for the circuit it built, on the local
    simulator, with 10000 shots and optimization level 0, and reports
    its status once. *)
Theorem get_pi_estimate_session (get_counts : job -> result counts)
    (n : nat) (s : session) :
  1 <= n <= 1024 ->
  pi_estimates (fst (get_pi_estimate get_counts n s)) = pi_estimates s /\
  jobs (fst (get_pi_estimate get_counts n s)) =
    jobs s ++ [mkJob (built_circuit n) simulator 10000%Z 0%Z] /\
  stdout (fst (get_pi_estimate get_counts n s)) =
    stdout s ++ [JobStatus (mkJob (built_circuit n) simulator 10000%Z 0%Z)].
Proof.
  intros Hn. rewrite get_pi_estimate_run, (estimation_circuit_ok n Hn). repeat split.
Qed.

Lemma get_pi_estimate_session_witness :
  1 <= 3 <= 1024 /\
  pi_estimates (fst (get_pi_estimate backend_zero 3 fresh)) = pi_estimates fresh /\
  jobs (fst (get_pi_estimate backend_zero 3 fresh)) =
    jobs fresh ++ [mkJob (built_circuit 3) simulator 10000%Z 0%Z] /\
  stdout (fst (get_pi_estimate backend_zero 3 fresh)) =
    stdout fresh ++ [JobStatus (mkJob (built_circuit 3) simulator 10000%Z 0%Z)].
Proof. split; [lia|]. apply (get_pi_estimate_session backend_zero 3 fresh). lia. Defined.

(** X6.  Without estimation qubits [get_pi_estimate] raises
    [CircuitError] while it builds the circuit and leaves the session
    as it was: no file saved, no job submitted, nothing printed. *)
Theorem get_pi_estimate_without_qubits (get_counts : job -> result counts)
    (s : session) :
  get_pi_estimate get_counts 0 s = (s, Raise CircuitError).
Proof. rewrite get_pi_estimate_run, estimation_circuit_refused. reflexivity. Qed.

(** X10.  The sweep stops at the first qubit count whose estimation
    raises, whatever the exception: that exception leaves the sweep,
    the global list holds exactly the estimates of the qubit counts
    before it, and estimate lines have been printed for those only. *)
Theorem sweep_first_failure (get_counts : job -> result counts)
    (e : nat -> pyfloat) (nq : nat) (err : exn) (s : session) :
  In nq nqs ->
  (forall m, In m nqs -> m < nq ->
     snd (get_pi_estimate get_counts m fresh) = Ok (e m)) ->
  snd (get_pi_estimate get_counts nq fresh) = Raise err ->
  snd (sweep get_counts s) = Raise err /\
  pi_estimates (fst (sweep get_counts s)) = map e (seq 2 (nq - 2)) /\
  estimate_lines (stdout (fst (sweep get_counts s))) =
    estimate_lines (stdout s) ++ map (fun m => (m, e m)) (seq 2 (nq - 2)).
Proof.
  intros Hin Hearlier Herr. rewrite sweep_unfold.
  unfold nqs, Py.range2 in *. rewrite (seq_split_at 2 (12 + 1 - 2) nq Hin).
  rewrite for_each_app.
  destruct (sweep_loop_ok get_counts e (seq 2 (nq - 2)))
    with (s := mkSession (files s) (stdout s) (jobs s) [])
    as (s1 & Hrun & Hpi & Hout & _).
  { intros m Hm. apply in_seq in Hm. apply in_seq in Hin.
    apply Hearlier; [apply in_seq|]; lia. }
  rewrite Hrun. simpl for_each.
  destruct (sweep_body_fails_quiet get_counts nq s1 err Herr) as (s2 & Hrun2 & Hpi2 & Hout2).
  erewrite bind_raise by exact Hrun2. cbn [fst snd].
  rewrite Hpi2, Hout2, Hpi, Hout. repeat split.
Qed.

Lemma sweep_first_failure_witness :
  In 4 nqs /\
  (forall m, In m nqs -> m < 4 ->
     snd (get_pi_estimate backend_small m fresh) = Ok (Finite (inject_Z (2 ^ (Z.of_nat m - 1))))) /\
  snd (get_pi_estimate backend_small 4 fresh) = Raise BackendError /\
  snd (sweep backend_small fresh) = Raise BackendError /\
  pi_estimates (fst (sweep backend_small fresh))
    = map (fun m => Finite (inject_Z (2 ^ (Z.of_nat m - 1)))) (seq 2 (4 - 2)) /\
  estimate_lines (stdout (fst (sweep backend_small fresh))) =
    estimate_lines (stdout fresh)
    ++ map (fun m => (m, Finite (inject_Z (2 ^ (Z.of_nat m - 1))))) (seq 2 (4 - 2)).
Proof.
  assert (Hin : In 4 nqs) by (vm_compute; auto).
  assert (Hearlier : forall m, In m nqs -> m < 4 ->
            snd (get_pi_estimate backend_small m fresh)
            = Ok (Finite (inject_Z (2 ^ (Z.of_nat m - 1))))).
  { intros m Hm Hlt. unfold nqs, Py.range2 in Hm. simpl in Hm.
    repeat (destruct Hm as [<-|Hm]; [try (vm_compute; reflexivity); lia|]).
    destruct Hm. }
  assert (Herr : snd (get_pi_estimate backend_small 4 fresh) = Raise BackendError)
    by (vm_compute; reflexivity).
  split; [exact Hin|]. split; [exact Hearlier|]. split; [exact Herr|].
  apply (sweep_first_failure backend_small (fun m => Finite (inject_Z (2 ^ (Z.of_nat m - 1)))) 4
           BackendError fresh Hin Hearlier Herr).
Defined.

(** X11.  A sweep in which every estimation returns saves exactly
    eight diagrams, those for 2 to 9 qubits, in this order, and none
    for 10, 11 and 12 qubits. *)
Theorem sweep_files (get_counts : job -> result counts) (s : session) :
  (forall nq, In nq nqs -> exists v, snd (get_pi_estimate get_counts nq fresh) = Ok v) ->
  files (fst (sweep get_counts s)) =
  files s ++ map diagram_name [2; 3; 4; 5; 6; 7; 8; 9].
Proof.
  intros Hall. rewrite sweep_unfold.
  rewrite (sweep_loop_files get_counts nqs Hall). reflexivity.
Qed.

Lemma sweep_files_witness :
  (forall nq, In nq nqs -> exists v, snd (get_pi_estimate backend_01 nq fresh) = Ok v) /\
  files (fst (sweep backend_01 fresh)) =
  files fresh ++ map diagram_name [2; 3; 4; 5; 6; 7; 8; 9].
Proof.
  assert (Hall : forall nq, In nq nqs ->
            exists v, snd (get_pi_estimate backend_01 nq fresh) = Ok v).
  { intros nq Hin. unfold nqs, Py.range2 in Hin. simpl in Hin.
    repeat (destruct Hin as [<-|Hin]; [eexists; vm_compute; reflexivity|]).
    destruct Hin. }
  split; [exact Hall|].
  apply (sweep_files backend_01 fresh Hall).
Defined.

(** X12.  Up to 53 qubits, on a non-empty counts table of n-bit
    outcomes, [get_pi_estimate] either raises [ZeroDivisionError] (the
    mode is all zeros) or returns a finite estimate of at least 1/2
    and at most 2^(n-1); it raises nothing else and never returns an
    infinity. *)
Theorem estimate_bounds (get_counts : job -> result counts)
    (n : nat) (s : session) (cnts : counts) :
  counts_of_run get_counts n = Ok cnts ->
  n <= 53 ->
  cnts <> [] ->
  Forall (fun key => is_bitstring n key = true) (keys cnts) ->
  snd (get_pi_estimate get_counts n s) = Raise ZeroDivisionError \/
  exists r,
    snd (get_pi_estimate get_counts n s) = Ok (Finite r) /\
    (1 # 2 <= r /\ r <= inject_Z (2 ^ (Z.of_nat n - 1)))%Q.
Proof.
  intros Hrun Hn53 Hne Hbits. rewrite Forall_forall in Hbits.
  pose proof (counts_of_run_range get_counts n cnts Hrun) as Hn.
  assert (Hkeys : keys cnts <> []) by (destruct cnts; [congruence|discriminate]).
  destruct (max_spec (counts_get cnts) (keys cnts) Hkeys) as (key & Hmax & Hin & _).
  destruct (parse2_value n key) as [Hparse Hk]; [lia|now apply Hbits|].
  rewrite get_pi_estimate_result, Hrun. unfold theta_of_counts.
  rewrite Hmax, Hparse.
  destruct (Z.eq_dec (binary_value key) 0) as [Hzero|Hk0].
  - left. rewrite Hzero, truediv_zero. apply estimate_zero_mode_raise.
  - right. pose proof (outcome_below_2_53 _ n Hn53 (proj2 Hk)) as H53.
    rewrite truediv_pow2 by lia.
    rewrite estimate_value by lia.
    eexists. split; [reflexivity|]. apply estimate_rounded_bounds; lia.
Qed.

Lemma estimate_bounds_witness :
  counts_of_run backend_41 8 =
    Ok [("00101000"%string, 2100%Z); ("00101001"%string, 6800%Z);
        ("00101010"%string, 1100%Z)] /\
  8 <= 53 /\
  [("00101000"%string, 2100%Z); ("00101001"%string, 6800%Z);
   ("00101010"%string, 1100%Z)] <> [] /\
  Forall (fun key => is_bitstring 8 key = true)
    (keys [("00101000"%string, 2100%Z); ("00101001"%string, 6800%Z);
           ("00101010"%string, 1100%Z)]) /\
  (snd (get_pi_estimate backend_41 8 fresh) = Raise ZeroDivisionError \/
   exists r,
     snd (get_pi_estimate backend_41 8 fresh) = Ok (Finite r) /\
     (1 # 2 <= r /\ r <= inject_Z (2 ^ (Z.of_nat 8 - 1)))%Q).
Proof.
  split; [vm_compute; reflexivity|].
  split; [lia|]. split; [discriminate|]. split; [repeat constructor|].
  apply (estimate_bounds backend_41 8 fresh
           [("00101000"%string, 2100%Z); ("00101001"%string, 6800%Z);
            ("00101010"%string, 1100%Z)]).
  - vm_compute; reflexivity.
  - lia.
  - discriminate.
  - repeat constructor.
Defined.

(** X13.  Among outcomes of equal highest count, [get_pi_estimate]
    takes the one that comes first in the counts table: every key
    before the selected one has a strictly smaller count, every key
    after it a count that is not larger. *)
Theorem mode_is_first_highest (cnts : counts) :
  cnts <> [] ->
  exists key pre post,
    PyMax.max (keys cnts) (counts_get cnts) = Ok key /\
    keys cnts = pre ++ key :: post /\
    (forall a, In a pre -> (counts_get cnts a < counts_get cnts key)%Z) /\
    (forall a, In a post -> (counts_get cnts a <= counts_get cnts key)%Z).
Proof.
  intros Hne. destruct cnts as [|[k0 v0] cnts]; [congruence|].
  destruct (scan_first (counts_get ((k0, v0) :: cnts)) (keys cnts) k0)
    as (pre & post & Heq & Hpre & Hpost).
  exists (PyMax.scan (counts_get ((k0, v0) :: cnts)) k0 (keys cnts)), pre, post.
  split; [reflexivity|]. split; [exact Heq|]. split; assumption.
Qed.

Lemma mode_is_first_highest_witness :
  [("10"%string, 5000%Z); ("01"%string, 5000%Z)] <> [] /\
  exists key pre post,
    PyMax.max (keys [("10"%string, 5000%Z); ("01"%string, 5000%Z)])
      (counts_get [("10"%string, 5000%Z); ("01"%string, 5000%Z)]) = Ok key /\
    keys [("10"%string, 5000%Z); ("01"%string, 5000%Z)] = pre ++ key :: post /\
    (forall a, In a pre ->
       (counts_get [("10"%string, 5000%Z); ("01"%string, 5000%Z)] a
        < counts_get [("10"%string, 5000%Z); ("01"%string, 5000%Z)] key)%Z) /\
    (forall a, In a post ->
       (counts_get [("10"%string, 5000%Z); ("01"%string, 5000%Z)] a
        <= counts_get [("10"%string, 5000%Z); ("01"%string, 5000%Z)] key)%Z).
Proof.
  split; [discriminate|].
  apply (mode_is_first_highest [("10"%string, 5000%Z); ("01"%string, 5000%Z)]).
  discriminate.
Defined.
